(** * Noise contrastive estimation loss (nce.py): model and properties

    A shallow embedding of [nce.py]: the classes [NCELoss] and
    [IndexLinear], the module's top-level statements, and the properties
    of the loss that the specification states.

    Conventions of the model.
    - Tensor elements are real numbers (exact arithmetic): a 1-d tensor is
      a [list R], a 2-d tensor a list of rows.  Indices are natural numbers.
    - Python exceptions are values of [pyerror]; code that can raise runs in
      the monad [M], which threads the interpreter state [world].
    - [torch.multinomial] reads its draws from a tape of the world, so that
      a call is a function of the generator state, which it advances.
    - Parameters of modules live in a heap and are held by reference, as
      Python objects are. *)

From Stdlib Require Import Reals Lra Lia.
From stdpp Require Import base list gmap strings.

(** ** Exceptions, world and the monad *)

Inductive pyerror : Type :=
| AssertionError
| IndexError
| RuntimeError
| CudaError
| NameError (name : string).

Inductive result (A : Type) : Type :=
| Ok (a : A)
| Raise (e : pyerror).
Arguments Ok {A} a.
Arguments Raise {A} e.

(** A tensor stored in the heap. *)
Inductive tensor : Type :=
| Vec (v : list R)
| Mat (m : list (list R)).

Abbreviation loc := positive.

Record world : Type := World {
  cuda_available : bool;            (* is there a CUDA device *)
  tape : nat → nat;                 (* the draws of torch.multinomial *)
  uniform : nat → R;                (* the draws of parameter initialisation *)
  rng_pos : nat;                    (* state of the generator *)
  heap : gmap loc tensor            (* parameters, by reference *)
}.

Definition advance (n : nat) (w : world) : world :=
  World (cuda_available w) (tape w) (uniform w) (rng_pos w + n) (heap w).

Definition set_heap (h : gmap loc tensor) (w : world) : world :=
  World (cuda_available w) (tape w) (uniform w) (rng_pos w) h.

Definition M (A : Type) : Type := world → result A * world.

#[global] Instance M_ret : MRet M := λ A a w, (Ok a, w).
#[global] Instance M_bind : MBind M := λ A B f m w,
  match m w with
  | (Ok a, w') => f a w'
  | (Raise e, w') => (Raise e, w')
  end.

Definition raise {A} (e : pyerror) : M A := λ w, (Raise e, w).

(** [assert c] *)
Definition py_assert (c : bool) : M unit :=
  if c then mret () else raise AssertionError.

(** [l[i]] for an index in range; out of range raises. *)
Definition getitem {A} (l : list A) (i : nat) : M A :=
  match l !! i with
  | Some a => mret a
  | None => raise IndexError
  end.

(** [l[indices]] with a tensor of indices: one entry per index, in order. *)
Definition gather {A} (l : list A) (indices : list nat) : M (list A) :=
  mapM (getitem l) indices.

(** [buf[i] = v]. *)
Definition setitem {A} (buf : list A) (i : nat) (v : A) : M (list A) :=
  if decide (i < length buf) then mret (<[i:=v]> buf) else raise IndexError.

(** [buf[i] = row] on a 2-d buffer: the row must have the buffer's width. *)
Definition setrow {A} (buf : list (list A)) (i : nat) (row : list A)
  : M (list (list A)) :=
  match buf !! i with
  | Some old =>
      if decide (length old = length row) then mret (<[i:=row]> buf)
      else raise RuntimeError
  | None => raise IndexError
  end.

(** [x.cuda()] and [torch.cuda.synchronize()]: both need a CUDA device. *)
Definition to_cuda {A} (x : A) : M A := λ w,
  if cuda_available w then (Ok x, w) else (Raise CudaError, w).

Definition cuda_synchronize : M unit := to_cuda ().

(** Dereference a parameter. *)
Definition deref (l : loc) : M tensor := λ w,
  match heap w !! l with
  | Some t => (Ok t, w)
  | None => (Raise RuntimeError, w)
  end.

Definition deref_mat (l : loc) : M (list (list R)) :=
  t ← deref l;
  match t with Mat m => mret m | Vec _ => raise RuntimeError end.

Definition deref_vec (l : loc) : M (list R) :=
  t ← deref l;
  match t with Vec v => mret v | Mat _ => raise RuntimeError end.

(** ** Tensor arithmetic *)

Definition Rsum (l : list R) : R := foldr Rplus 0%R l.

Definition dot (x y : list R) : R := Rsum (zip_with Rmult x y).

(** [F.linear(input, weight, bias)]: [input @ weight.T + bias].  The
    function is total here; torch raises when the sizes do not fit, and
    the properties below are stated for tensors whose sizes fit. *)
Definition F_linear (input weight : list (list R)) (bias : list R)
  : list (list R) :=
  (λ x, zip_with Rplus (dot x <$> weight) bias) <$> input.

#[global] Instance Rle_decision (x y : R) : Decision (x <= y)%R := Rle_dec x y.
#[global] Instance Rlt_decision (x y : R) : Decision (x < y)%R := Rlt_dec x y.

(** The distributions [torch.multinomial] accepts: no negative entry and
    a positive sum. *)
Definition valid_distribution (p : list R) : bool :=
  forallb (λ x, bool_decide (0 <= x)%R) p && bool_decide (0 < Rsum p)%R.

(** [torch.multinomial(p, n, replacement=True)]: [n] draws, read from the
    tape; an invalid distribution or [n = 0] raises. *)
Definition multinomial (p : list R) (n : nat) : M (list nat) := λ w,
  if valid_distribution p && bool_decide (0 < n) then
    (Ok (tape w <$> seq (rng_pos w) n), advance n w)
  else (Raise RuntimeError, w).

(** ** The classes *)

Record IndexLinear : Type := MkIndexLinear {
  weight : loc;
  bias : loc
}.

Record NCELoss : Type := MkNCELoss {
  noise : list R;
  noise_ratio : nat;
  norm_term : R;
  ntokens : nat;
  size_average : bool;
  decoder : IndexLinear
}.

(** [IndexLinear.forward]: project on the rows and bias entries of
    [indices] only. *)
Definition IndexLinear_forward (self : IndexLinear)
    (input : list (list R)) (indices : list nat) : M (list (list R)) :=
  W ← deref_mat (weight self);
  b ← deref_vec (bias self);
  Wi ← gather W indices;
  bi ← gather b indices;
  mret (F_linear input Wi bi).

(** [nn.Linear.forward], which [IndexLinear] inherits from and overrides:
    the dense projection on the whole vocabulary. *)
Definition Linear_forward (self : IndexLinear) (input : list (list R))
  : M (list (list R)) :=
  W ← deref_mat (weight self);
  b ← deref_vec (bias self);
  mret (F_linear input W b).

(** [nn.Linear.__init__(in_features, out_features)]: a fresh
    [out_features x in_features] weight and a fresh bias of length
    [out_features], filled by [reset_parameters] with uniform draws. *)
Definition rand_vec (n : nat) : M (list R) := λ w,
  (Ok (uniform w <$> seq (rng_pos w) n), advance n w).

Definition rand_mat (rows cols : nat) : M (list (list R)) :=
  mapM (λ _, rand_vec cols) (seq 0 rows).

Definition alloc (t : tensor) : M loc := λ w,
  let l := fresh (dom (heap w)) in
  (Ok l, set_heap (<[l:=t]> (heap w)) w).

Definition IndexLinear_init (in_features out_features : nat) : M IndexLinear :=
  Wv ← rand_mat out_features in_features;
  bv ← rand_vec out_features;
  lw ← alloc (Mat Wv);
  lb ← alloc (Vec bv);
  mret (MkIndexLinear lw lb).

Definition numel (t : tensor) : nat :=
  match t with
  | Vec v => length v
  | Mat m => length (concat m)
  end.

(** The truth value of a tensor, as [if t:] asks for it: an empty tensor
    is false, and the truth value of a tensor that is not empty is
    ambiguous, which raises. *)
Definition tensor_bool (t : tensor) : M bool :=
  if decide (numel t = 0) then mret false else raise RuntimeError.

(** [NCELoss.__init__]; an argument left out is [None] here and takes the
    default of the signature. *)
Definition NCELoss_init (ntokens emb_size : nat) (noise : list R)
    (noise_ratio : option nat) (norm_term : option R)
    (size_average : option bool) (decoder_weight : option loc) : M NCELoss :=
  dec ← IndexLinear_init emb_size ntokens;
  dec' ← match decoder_weight with
         | None => mret dec
         | Some l =>
             t ← deref l;
             c ← tensor_bool t;
             mret (if c : bool then MkIndexLinear l (bias dec) else dec)
         end;
  mret (MkNCELoss noise (default 10 noise_ratio) (default 9%R norm_term)
          ntokens (default true size_average) dec').

(** [NCELoss._get_prob] *)
Definition get_prob_indices (target_idx : nat) (noise_idx : list nat)
  : list nat := target_idx :: noise_idx.

Definition _get_prob (self : NCELoss) (embedding : list R)
    (target_idx : nat) (noise_idx : list nat) : M (R * list R) :=
  let indices := get_prob_indices target_idx noise_idx in
  out ← IndexLinear_forward (decoder self) [embedding] indices;
  let probs := (λ l, exp (l - norm_term self)) <$> concat out in
  p0 ← getitem probs 0;
  mret (p0, drop 1 probs).

(** The three buffers of [forward]: [data_prob], [noise_in_data_probs]
    and [noise_probs]. *)
Record buffers : Type := Buffers {
  data_prob : list R;
  noise_in_data_probs : list (list R);
  noise_probs : list (list R)
}.

(** One round of the loop of [forward]. *)
Definition loop_body (self : NCELoss) (input : list (list R))
    (bufs : buffers) (it : nat * nat) : M buffers :=
  let '(idx, target_idx) := it in
  noise_samples ← multinomial (noise self) (noise_ratio self);
  cuda_synchronize;;
  x ← getitem input idx;
  r ← _get_prob self x target_idx noise_samples;
  dp ← setitem (data_prob bufs) idx r.1;
  nd ← setrow (noise_in_data_probs bufs) idx r.2;
  cuda_synchronize;;
  ns ← gather (noise self) noise_samples;
  np ← setrow (noise_probs bufs) idx ns;
  cuda_synchronize;;
  mret (Buffers dp nd np).

Fixpoint for_each {A S} (body : S → A → M S) (s : S) (l : list A) : M S :=
  match l with
  | [] => mret s
  | a :: l' => s' ← body s a; for_each body s' l'
  end.

Definition enumerate {A} (l : list A) : list (nat * A) :=
  zip (seq 0 (length l)) l.

(** [k * v] and [torch.log(v)], elementwise. *)
Definition scale (k : R) (v : list R) : list R := Rmult k <$> v.
Definition tlog (v : list R) : list R := ln <$> v.

(** The reduction of [forward], after the loop. *)
Definition rnn_loss (K : nat) (data_prob noise_target : list R) : list R :=
  tlog (zip_with Rdiv data_prob
          (zip_with Rplus data_prob (scale (INR K) noise_target))).

Definition noise_loss (K : nat) (noise_probs noise_in_data_probs : list (list R))
  : list R :=
  let scaled := scale (INR K) <$> noise_probs in
  Rsum <$> (tlog <$>
    zip_with (zip_with Rdiv) scaled
      (zip_with (zip_with Rplus) noise_in_data_probs scaled)).

(** [NCELoss.forward] *)
Definition forward (self : NCELoss) (input : list (list R))
    (target : list nat) : M R :=
  py_assert (bool_decide (length input = length target));;
  let N := length target in
  let K := noise_ratio self in
  dp0 ← to_cuda (replicate N 0%R);
  nd0 ← to_cuda (replicate N (replicate K 0%R));
  np0 ← to_cuda (replicate (length nd0) (replicate K 0%R));
  cuda_synchronize;;
  bufs ← for_each (loop_body self input) (Buffers dp0 nd0 np0) (enumerate target);
  nt ← gather (noise self) target;
  let loss := (-1 * Rsum (zip_with Rplus
                 (rnn_loss K (data_prob bufs) nt)
                 (noise_loss K (noise_probs bufs) (noise_in_data_probs bufs))))%R in
  mret (if size_average self then (loss / INR N)%R else loss).

(** ** The module's top-level statements

    Executing a statement looks up the names it evaluates at definition
    time (base classes, decorators) in the module's globals and then in
    the builtins, and binds a name in the globals. *)

Record stmt : Type := Stmt {
  evaluates : list string;
  binds : string
}.

Definition nce_py : list stmt := [
  Stmt [] "torch";                      (* import torch *)
  Stmt [] "nn";                         (* import torch.nn as nn *)
  Stmt [] "Variable";                   (* from torch.autograd import Variable *)
  Stmt [] "F";                          (* import torch.nn.functional as F *)
  Stmt [] "take";                       (* def take(iterator, count) *)
  Stmt ["nn"; "profile"] "NCELoss";     (* class NCELoss(nn.Module), with @profile *)
  Stmt ["nn"] "IndexLinear"             (* class IndexLinear(nn.Linear) *)
].

Fixpoint first_unbound (scope : gset string) (names : list string)
  : option string :=
  match names with
  | [] => None
  | n :: names' =>
      if decide (n ∈ scope) then first_unbound scope names' else Some n
  end.

Fixpoint exec_module (builtins globals : gset string) (body : list stmt)
  : result (gset string) :=
  match body with
  | [] => Ok globals
  | s :: body' =>
      match first_unbound (globals ∪ builtins) (evaluates s) with
      | Some n => Raise (NameError n)
      | None => exec_module builtins ({[binds s]} ∪ globals) body'
      end
  end.

Definition import_nce (builtins : gset string) : result (gset string) :=
  exec_module builtins ∅ nce_py.

(** * Notions the properties are stated with *)

Definition of_option {A} (o : option A) : result A :=
  match o with
  | Some a => Ok a
  | None => Raise IndexError
  end.

(** One logit of the dense projection. *)
Definition logit (W : list (list R)) (b : list R) (x : list R) (i : nat) : R :=
  (dot x (nth i W []) + nth i b 0)%R.

(** The identity as weight and no bias; token 1 is asked for twice. *)
Definition id_decoder : IndexLinear := MkIndexLinear 1%positive 2%positive.
Definition id_world : world :=
  World true (λ _, 0) (λ _, 0%R) 0
    (<[1%positive := Mat [[1; 0]; [0; 1]]%R]> (<[2%positive := Vec [0; 0]%R]> ∅)).

(** The pseudo-probability of token [i] under the model:
    [exp(logit - norm_term)]. *)
Definition model_prob (self : NCELoss) (W : list (list R)) (b x : list R)
    (i : nat) : R :=
  exp (logit W b x i - norm_term self).

(** What a call of [forward] needs to run to its end: a CUDA device, the
    decoder's parameters in the heap with one row and one bias entry per
    token, a distribution [torch.multinomial] accepts, at least one noise
    sample per example, and draws that are tokens. *)
Record forward_ready (self : NCELoss) (W : list (list R)) (b : list R)
    (w : world) : Prop := ForwardReady {
  ready_cuda : cuda_available w = true;
  ready_weight : heap w !! weight (decoder self) = Some (Mat W);
  ready_bias : heap w !! bias (decoder self) = Some (Vec b);
  ready_rows : length W = length (noise self);
  ready_entries : length b = length (noise self);
  ready_noise : valid_distribution (noise self) = true;
  ready_ratio : 0 < noise_ratio self;
  ready_draws : ∀ i, tape w i < length (noise self)
}.

(** An example of the batch, with the noise samples drawn for it. *)
Record example : Type := MkExample {
  ex_input : list R;
  ex_target : nat;
  ex_draws : list nat
}.

(** The examples of a batch when the generator is at position [p]: each
    one takes the next [K] draws of the tape. *)
Fixpoint examples_from (tp : nat → nat) (p K : nat)
    (xs : list (list R)) (ts : list nat) : list example :=
  match xs, ts with
  | x :: xs', t :: ts' =>
      MkExample x t (tp <$> seq p K) :: examples_from tp (p + K) K xs' ts'
  | _, _ => []
  end.

Definition examples (self : NCELoss) (input : list (list R))
    (target : list nat) (w : world) : list example :=
  examples_from (tape w) (rng_pos w) (noise_ratio self) input target.

(** The terms of the loss as the specification states them. *)
Definition data_term (self : NCELoss) (W : list (list R)) (b : list R)
    (e : example) : R :=
  let K := INR (noise_ratio self) in
  let data_prob := model_prob self W b (ex_input e) (ex_target e) in
  ln (data_prob / (data_prob + K * nth (ex_target e) (noise self) 0))%R.

Definition noise_term (self : NCELoss) (W : list (list R)) (b : list R)
    (e : example) : R :=
  let K := INR (noise_ratio self) in
  Rsum ((λ j,
           let noise_prob := nth j (noise self) 0%R in
           let noise_in_data_prob := model_prob self W b (ex_input e) j in
           ln ((K * noise_prob) / (noise_in_data_prob + K * noise_prob))%R)
        <$> ex_draws e).

Definition total_loss (self : NCELoss) (W : list (list R)) (b : list R)
    (exs : list example) : R :=
  (- Rsum ((λ e, data_term self W b e + noise_term self W b e) <$> exs))%R.

Definition nce_loss (self : NCELoss) (W : list (list R)) (b : list R)
    (exs : list example) : R :=
  if size_average self
  then (total_loss self W b exs / INR (length exs))%R
  else total_loss self W b exs.

(** ** A small instance
    Two tokens, embeddings of size two, the identity as weight, no bias,
    the uniform noise distribution, two noise samples per example, on a
    machine with a CUDA device whose generator always draws token 0. *)
Module Demo.
Definition W : list (list R) := [[1; 0]; [0; 1]]%R.
Definition b : list R := [0; 0]%R.
Definition self : NCELoss :=
  MkNCELoss [1/2; 1/2]%R 2 0%R 2 true (MkIndexLinear 1%positive 2%positive).
Definition w : world :=
  World true (λ _, 0) (λ _, 0%R) 0
    (<[1%positive := Mat W]> (<[2%positive := Vec b]> ∅)).
Definition input : list (list R) := [[1; 2]]%R.
Definition target : list nat := [1].
End Demo.

(** The scenario of the specification: five tokens, embeddings of size
    three, uniform noise, two noise samples (tokens 0 and 1), no
    normalisation term, the identity padded with zero rows as weight and
    no bias; one example with target 2 and embedding (1, 2, 3). *)
Module Scenario.
Definition W : list (list R) :=
  [[1; 0; 0]; [0; 1; 0]; [0; 0; 1]; [0; 0; 0]; [0; 0; 0]]%R.
Definition b : list R := [0; 0; 0; 0; 0]%R.
Definition self : NCELoss :=
  MkNCELoss [1/5; 1/5; 1/5; 1/5; 1/5]%R 2 0%R 5 true
    (MkIndexLinear 1%positive 2%positive).
Definition w : world :=
  World true (λ i, i mod 2) (λ _, 0%R) 0
    (<[1%positive := Mat W]> (<[2%positive := Vec b]> ∅)).
Definition input : list (list R) := [[1; 2; 3]]%R.
Definition target : list nat := [2].
End Scenario.

Definition zeros (self : NCELoss) (N : nat) : buffers :=
  Buffers (replicate N 0%R)
          (replicate N (replicate (noise_ratio self) 0%R))
          (replicate N (replicate (noise_ratio self) 0%R)).

Definition with_size_average (sa : bool) (self : NCELoss) : NCELoss :=
  MkNCELoss (noise self) (noise_ratio self) (norm_term self) (ntokens self)
    sa (decoder self).

(** The outcome of a run, with a function applied to the value returned. *)
Definition map_run {A B} (g : A → B) (r : result A * world)
  : result B * world :=
  (match r.1 with Ok a => Ok (g a) | Raise e => Raise e end, r.2).

(** The small instance on a machine without a CUDA device: parameters,
    noise, input and target are all in host memory. *)
Definition host_world : world :=
  World false (tape Demo.w) (uniform Demo.w) (rng_pos Demo.w) (heap Demo.w).

Module Flat.
(** The target, token 1, has noise probability zero. *)
Definition self : NCELoss :=
  MkNCELoss [1; 0]%R 10 9%R 2 true (MkIndexLinear 1%positive 2%positive).
Definition W : list (list R) := [[0]; [0]]%R.
Definition b : list R := [0; 0]%R.
Definition b' : list R := [0; 1]%R.
Definition e : example := MkExample [1%R] 1 [0; 0; 0; 0; 0; 0; 0; 0; 0; 0].
End Flat.

(** The example of the small instance. *)
Definition demo_example : example := MkExample [1; 2]%R 1 [0; 0].

(** Names a Python interpreter provides without any import, as far as
    [nce.py] uses them. *)
Definition python_builtins : gset string :=
  list_to_set ["list"; "next"; "range"; "enumerate"; "super"; "len"; "print"].

Ltac in_scope :=
  rewrite ?elem_of_union, ?elem_of_singleton, ?elem_of_empty; naive_solver.

(** ** [take]

    [take(iterator, count)] is [list(next(iterator) for _ in range(count))].
    An iterator is a state with its [next], which returns an item and the
    state after it, or nothing when the iterator is exhausted
    ([StopIteration]).  A [StopIteration] raised inside the generator
    expression ends the generator quietly in a Python without PEP 479
    (before 3.7), and becomes a [RuntimeError] in a Python with it. *)
Module Py.
Section Take.
Context {Iter A : Type} (next : Iter → option (A * Iter)).

Fixpoint take (pep479 : bool) (iterator : Iter) (count : nat)
  : result (list A) * Iter :=
  match count with
  | 0 => (Ok [], iterator)
  | S count' =>
      match next iterator with
      | None => (if pep479 then Raise RuntimeError else Ok [], iterator)
      | Some (a, iterator') =>
          let '(r, iterator'') := take pep479 iterator' count' in
          (match r with Ok l => Ok (a :: l) | Raise e => Raise e end,
           iterator'')
      end
  end.
End Take.
End Py.

(** The iterator of a list: [iter(l)], as the items still to come. *)
Definition list_next {A} (it : list A) : option (A * list A) :=
  match it with
  | [] => None
  | a :: rest => Some (a, rest)
  end.

(** A state [w'] reached from [w] without writing a parameter, changing
    the machine or rewinding the generator. *)
Definition stable (w w' : world) : Prop :=
  heap w' = heap w
  ∧ cuda_available w' = cuda_available w
  ∧ tape w' = tape w
  ∧ uniform w' = uniform w
  ∧ rng_pos w ≤ rng_pos w'.

Definition keeps_machine {A} (m : M A) : Prop := ∀ w, stable w (m w).2.

(** * Properties *)

(** ** The monad *)

Lemma bind_ok {A B} (m : M A) (f : A → M B) w a w' :
  m w = (Ok a, w') → (m ≫= f) w = f a w'.
Proof. intros H. unfold mbind, M_bind. by rewrite H. Qed.

Lemma bind_raise {A B} (m : M A) (f : A → M B) w e w' :
  m w = (Raise e, w') → (m ≫= f) w = (Raise e, w').
Proof. intros H. unfold mbind, M_bind. by rewrite H. Qed.

Lemma bind_run {A B} (m : M A) (f : A → M B) w :
  (m ≫= f) w =
  match m w with
  | (Ok a, w') => f a w'
  | (Raise e, w') => (Raise e, w')
  end.
Proof. done. Qed.

Lemma ret_run {A} (a : A) w : (mret a : M A) w = (Ok a, w).
Proof. done. Qed.

Lemma getitem_run {A} (l : list A) i w :
  getitem l i w = (of_option (l !! i), w).
Proof. unfold getitem. by destruct (l !! i). Qed.

(** Gathering never touches the world, and fails exactly when an index is
    out of range. *)
Lemma gather_run {A} (l : list A) indices w :
  gather l indices w = (of_option (mapM (l !!.) indices), w).
Proof.
  unfold gather. induction indices as [|i indices IH]; [done|].
  cbn [mapM]. rewrite bind_run. rewrite getitem_run.
  destruct (l !! i) as [a|]; [|done]. cbn [of_option].
  rewrite bind_run. rewrite IH. cbn.
  by destruct (mapM (l !!.) indices).
Qed.

Lemma mapM_lookup_in_range {A} (l : list A) (d : A) indices :
  Forall (λ i, i < length l) indices →
  mapM (l !!.) indices = Some ((λ i, nth i l d) <$> indices).
Proof.
  induction 1 as [|i indices Hi _ IH]; [done|].
  cbn. apply lookup_lt_is_Some_2 in Hi as [a Ha].
  rewrite Ha, IH. cbn. by rewrite (nth_lookup_Some _ _ _ _ Ha).
Qed.

Lemma gather_in_range {A} (l : list A) (d : A) indices w :
  Forall (λ i, i < length l) indices →
  gather l indices w = (Ok ((λ i, nth i l d) <$> indices), w).
Proof.
  intros H. by rewrite gather_run, (mapM_lookup_in_range l d indices H).
Qed.

Lemma deref_mat_run l W w :
  heap w !! l = Some (Mat W) → deref_mat l w = (Ok W, w).
Proof. intros H. unfold deref_mat. rewrite bind_run. unfold deref. by rewrite H. Qed.

Lemma deref_vec_run l v w :
  heap w !! l = Some (Vec v) → deref_vec l w = (Ok v, w).
Proof. intros H. unfold deref_vec. rewrite bind_run. unfold deref. by rewrite H. Qed.

(** ** The indexed projection *)

(** Gathering from a zipped row is zipping the gathered rows. *)
Lemma mapM_lookup_zip_with (x : list R) (W : list (list R)) (b : list R) indices :
  mapM (zip_with Rplus (dot x <$> W) b !!.) indices =
  Wi ← mapM (W !!.) indices; bi ← mapM (b !!.) indices;
  Some (zip_with Rplus (dot x <$> Wi) bi).
Proof.
  induction indices as [|i indices IH]; [done|].
  cbn [mapM]. rewrite IH, lookup_zip_with, list_lookup_fmap.
  destruct (W !! i) as [r|]; cbn; [|done].
  destruct (b !! i) as [c|]; cbn.
  - destruct (mapM (W !!.) indices); cbn; [|done].
    by destruct (mapM (b !!.) indices).
  - by destruct (mapM (W !!.) indices).
Qed.

Lemma IndexLinear_forward_run self W b input indices w :
  heap w !! weight self = Some (Mat W) →
  heap w !! bias self = Some (Vec b) →
  IndexLinear_forward self input indices w =
  (of_option (Wi ← mapM (W !!.) indices; bi ← mapM (b !!.) indices;
              Some (F_linear input Wi bi)), w).
Proof.
  intros HW Hb. unfold IndexLinear_forward.
  rewrite (bind_ok _ _ _ _ _ (deref_mat_run _ _ _ HW)).
  rewrite (bind_ok _ _ _ _ _ (deref_vec_run _ _ _ Hb)).
  rewrite bind_run. rewrite gather_run.
  destruct (mapM (W !!.) indices) as [Wi|]; cbn; [|done].
  rewrite bind_run. rewrite gather_run.
  by destruct (mapM (b !!.) indices).
Qed.

Lemma IndexLinear_forward_in_range self W b x indices w :
  heap w !! weight self = Some (Mat W) →
  heap w !! bias self = Some (Vec b) →
  Forall (λ i, i < length W) indices →
  Forall (λ i, i < length b) indices →
  IndexLinear_forward self [x] indices w = (Ok [logit W b x <$> indices], w).
Proof.
  intros HW Hb HiW Hib.
  rewrite (IndexLinear_forward_run _ _ _ _ _ _ HW Hb).
  rewrite (mapM_lookup_in_range W [] indices HiW). cbn.
  rewrite (mapM_lookup_in_range b 0%R indices Hib). cbn.
  do 3 f_equal. clear. induction indices as [|i indices IH]; [done|].
  cbn. by rewrite IH.
Qed.

(** C2. The indexed projection of an embedding is the dense projection on
    the whole vocabulary followed by a gather of the requested indices, in
    order: both raise for an index out of range, and for indices in range
    the result has one entry [dot(embedding, weight[i]) + bias[i]] per
    occurrence of an index [i], repeated or not.  The weight has one row
    per bias entry, each of the size of the embedding. *)
Theorem IndexLinear_forward_is_dense_gather
    (self : IndexLinear) (W : list (list R)) (b embedding : list R)
    (indices : list nat) (w : world) :
  heap w !! weight self = Some (Mat W) →
  heap w !! bias self = Some (Vec b) →
  length b = length W →
  Forall (λ row, length row = length embedding) W →
  IndexLinear_forward self [embedding] indices w =
    (dense ← Linear_forward self [embedding];
     row ← getitem dense 0;
     out ← gather row indices;
     mret [out]) w
  ∧ (Forall (λ i, i < length W) indices →
     IndexLinear_forward self [embedding] indices w =
       (Ok [logit W b embedding <$> indices], w)
     ∧ length (logit W b embedding <$> indices) = length indices).
Proof.
  intros HW Hb Hlen _. split.
  - rewrite (IndexLinear_forward_run _ _ _ _ _ _ HW Hb).
    unfold Linear_forward.
    rewrite (bind_ok _ _ w [zip_with Rplus (dot embedding <$> W) b] w).
    2:{ rewrite (bind_ok _ _ _ _ _ (deref_mat_run _ _ _ HW)).
        by rewrite (bind_ok _ _ _ _ _ (deref_vec_run _ _ _ Hb)). }
    rewrite (bind_ok _ _ w (zip_with Rplus (dot embedding <$> W) b) w) by done.
    rewrite bind_run. rewrite gather_run, mapM_lookup_zip_with.
    destruct (mapM (W !!.) indices) as [Wi|]; cbn; [|done].
    by destruct (mapM (b !!.) indices).
  - intros Hi. split; [|by rewrite length_fmap].
    apply (IndexLinear_forward_in_range _ _ _ _ _ _ HW Hb Hi).
    by rewrite Hlen.
Qed.

Lemma IndexLinear_forward_is_dense_gather_witness :
  IndexLinear_forward id_decoder [[1; 2]%R] [1; 1; 0] id_world =
    (Ok [logit [[1; 0]; [0; 1]]%R [0; 0]%R [1; 2]%R <$> [1; 1; 0]], id_world).
Proof.
  apply (IndexLinear_forward_is_dense_gather id_decoder
           [[1; 0]; [0; 1]]%R [0; 0]%R [1; 2]%R [1; 1; 0] id_world).
  - reflexivity.
  - reflexivity.
  - reflexivity.
  - repeat constructor.
  - repeat constructor.
Defined.

(** ** The pseudo-probabilities *)

Lemma _get_prob_run self W b x t noise_idx w :
  heap w !! weight (decoder self) = Some (Mat W) →
  heap w !! bias (decoder self) = Some (Vec b) →
  Forall (λ i, i < length W) (t :: noise_idx) →
  Forall (λ i, i < length b) (t :: noise_idx) →
  _get_prob self x t noise_idx w =
    (Ok (model_prob self W b x t, model_prob self W b x <$> noise_idx), w).
Proof.
  intros HW Hb HiW Hib. unfold _get_prob, get_prob_indices.
  rewrite (bind_ok _ _ _ _ _
             (IndexLinear_forward_in_range _ _ _ x _ _ HW Hb HiW Hib)).
  cbn [concat]. rewrite app_nil_r. cbn [fmap list_fmap].
  rewrite bind_run, getitem_run. cbn [lookup list_lookup of_option].
  rewrite ret_run. cbn [drop]. unfold model_prob.
  by rewrite <- list_fmap_compose.
Qed.

Lemma multinomial_run p n w :
  valid_distribution p = true → 0 < n →
  multinomial p n w = (Ok (tape w <$> seq (rng_pos w) n), advance n w).
Proof.
  intros Hp Hn. unfold multinomial. rewrite Hp.
  by rewrite (bool_decide_eq_true_2 _ Hn).
Qed.

Lemma cuda_synchronize_run w :
  cuda_available w = true → cuda_synchronize w = (Ok (), w).
Proof. intros H. unfold cuda_synchronize, to_cuda. by rewrite H. Qed.

Lemma to_cuda_run {A} (x : A) w :
  cuda_available w = true → to_cuda x w = (Ok x, w).
Proof. intros H. unfold to_cuda. by rewrite H. Qed.

Lemma setitem_run {A} (buf : list A) i v w :
  i < length buf → setitem buf i v w = (Ok (<[i:=v]> buf), w).
Proof. intros H. unfold setitem. by rewrite decide_True. Qed.

Lemma setrow_run {A} (buf : list (list A)) i row w K :
  i < length buf → Forall (λ r, length r = K) buf → length row = K →
  setrow buf i row w = (Ok (<[i:=row]> buf), w).
Proof.
  intros Hi HK Hrow. unfold setrow.
  apply lookup_lt_is_Some_2 in Hi as [old Hold]. rewrite Hold.
  rewrite decide_True; [done|].
  rewrite Hrow. by apply (Forall_lookup_1 _ _ _ _ HK Hold).
Qed.

Lemma forward_ready_advance self W b w n :
  forward_ready self W b w → forward_ready self W b (advance n w).
Proof. intros []. by constructor. Qed.

Lemma advance_advance n m w : advance m (advance n w) = advance (n + m) w.
Proof. unfold advance. cbn. f_equal. lia. Qed.

Lemma draws_in_range self W b w p n :
  forward_ready self W b w →
  Forall (λ i, i < length (noise self)) (tape w <$> seq p n).
Proof.
  intros Hr. apply Forall_fmap, Forall_forall. intros i _. apply (ready_draws _ _ _ _ Hr).
Qed.

(** One round of the loop: the three buffers get the entries of example
    [idx], and the generator has moved by [noise_ratio] draws. *)
Lemma loop_body_run self W b input bufs idx t x w :
  forward_ready self W b w →
  input !! idx = Some x →
  t < length (noise self) →
  idx < length (data_prob bufs) →
  idx < length (noise_in_data_probs bufs) →
  idx < length (noise_probs bufs) →
  Forall (λ r, length r = noise_ratio self) (noise_in_data_probs bufs) →
  Forall (λ r, length r = noise_ratio self) (noise_probs bufs) →
  let draws := tape w <$> seq (rng_pos w) (noise_ratio self) in
  loop_body self input bufs (idx, t) w =
    (Ok (Buffers (<[idx := model_prob self W b x t]> (data_prob bufs))
                 (<[idx := model_prob self W b x <$> draws]> (noise_in_data_probs bufs))
                 (<[idx := (λ j, nth j (noise self) 0%R) <$> draws]> (noise_probs bufs))),
     advance (noise_ratio self) w).
Proof.
  intros Hr Hx Ht Hdp Hnd Hnp HndK HnpK draws.
  pose proof (forward_ready_advance _ _ _ _ (noise_ratio self) Hr) as Hr'.
  set (w' := advance (noise_ratio self) w) in *.
  assert (Hdraws : Forall (λ i, i < length (noise self)) draws)
    by apply (draws_in_range _ _ _ _ _ _ Hr).
  unfold loop_body.
  rewrite (bind_ok _ _ _ _ _
    (multinomial_run _ _ w (ready_noise _ _ _ _ Hr) (ready_ratio _ _ _ _ Hr))).
  fold draws w'.
  rewrite (bind_ok _ _ _ _ _ (cuda_synchronize_run w' (ready_cuda _ _ _ _ Hr'))).
  rewrite bind_run, getitem_run, Hx. cbn [of_option].
  assert (HiW : Forall (λ i, i < length W) (t :: draws))
    by (rewrite (ready_rows _ _ _ _ Hr); by constructor).
  assert (Hib : Forall (λ i, i < length b) (t :: draws))
    by (rewrite (ready_entries _ _ _ _ Hr); by constructor).
  rewrite (bind_ok _ _ _ _ _
    (_get_prob_run self W b x t draws w'
       (ready_weight _ _ _ _ Hr') (ready_bias _ _ _ _ Hr') HiW Hib)).
  cbn [fst snd].
  rewrite (bind_ok _ _ _ _ _ (setitem_run _ _ _ w' Hdp)).
  assert (HK : ∀ {A} (f : nat → A), length (f <$> draws) = noise_ratio self)
    by (intros; unfold draws; by rewrite !length_fmap, length_seq).
  rewrite (bind_ok _ _ _ _ _ (setrow_run _ _ _ w' _ Hnd HndK (HK _ _))).
  rewrite (bind_ok _ _ _ _ _ (cuda_synchronize_run w' (ready_cuda _ _ _ _ Hr'))).
  rewrite (bind_ok _ _ _ _ _ (gather_in_range _ 0%R _ w' Hdraws)).
  rewrite (bind_ok _ _ _ _ _ (setrow_run _ _ _ w' _ Hnp HnpK (HK _ _))).
  by rewrite (bind_ok _ _ _ _ _ (cuda_synchronize_run w' (ready_cuda _ _ _ _ Hr'))).
Qed.

(** ** The loop of [forward] *)

Lemma examples_from_nil_r tp p K xs : examples_from tp p K xs [] = [].
Proof. by destruct xs. Qed.

Lemma examples_from_length tp K xs : ∀ ts p,
  length xs = length ts → length (examples_from tp p K xs ts) = length ts.
Proof.
  induction xs as [|x xs IH]; intros [|t ts] p Hlen; cbn in *; try done.
  f_equal. apply IH. lia.
Qed.

Lemma examples_from_targets tp K xs : ∀ ts p,
  length xs = length ts → ex_target <$> examples_from tp p K xs ts = ts.
Proof.
  induction xs as [|x xs IH]; intros [|t ts] p Hlen; cbn in *; try done.
  f_equal. apply IH. lia.
Qed.

Lemma examples_from_draws tp K xs : ∀ ts p,
  Forall (λ e, length (ex_draws e) = K) (examples_from tp p K xs ts).
Proof.
  induction xs as [|x xs IH]; intros [|t ts] p; cbn; try by constructor.
  constructor; [|apply IH]. cbn. by rewrite length_fmap, length_seq.
Qed.

Lemma advance_0 w : advance 0 w = w.
Proof. destruct w. unfold advance. cbn. f_equal. lia. Qed.

(** Writing entry [k] of a buffer whose entries below [k] are final. *)
Lemma buffer_step {A} (l m : list A) k n v :
  k < length l →
  take (S k) (<[k:=v]> l) ++ m ++ drop (S k + n) (<[k:=v]> l) =
  take k l ++ (v :: m) ++ drop (k + S n) l.
Proof.
  intros Hk.
  rewrite (take_S_r _ _ v) by by apply list_lookup_insert_eq.
  rewrite take_insert_ge by done.
  rewrite drop_insert_lt by lia.
  replace (S k + n) with (k + S n) by lia.
  by rewrite <- app_assoc.
Qed.

(** The loop over the examples [k, k+1, ...] of the batch: when it starts
    with buffers of the batch's size, it ends, the entries of these
    examples hold their pseudo-probabilities, the other entries are
    unchanged, and every example has consumed [noise_ratio] draws. *)
Lemma for_each_loop_body_run self W b input : ∀ ts k bufs w,
  forward_ready self W b w →
  length input = k + length ts →
  Forall (λ t, t < length (noise self)) ts →
  length (data_prob bufs) = length input →
  length (noise_in_data_probs bufs) = length input →
  length (noise_probs bufs) = length input →
  Forall (λ r, length r = noise_ratio self) (noise_in_data_probs bufs) →
  Forall (λ r, length r = noise_ratio self) (noise_probs bufs) →
  let exs := examples_from (tape w) (rng_pos w) (noise_ratio self)
               (drop k input) ts in
  let n := length ts in
  for_each (loop_body self input) bufs (zip (seq k n) ts) w =
    (Ok (Buffers
           (take k (data_prob bufs)
              ++ ((λ e, model_prob self W b (ex_input e) (ex_target e)) <$> exs)
              ++ drop (k + n) (data_prob bufs))
           (take k (noise_in_data_probs bufs)
              ++ ((λ e, model_prob self W b (ex_input e) <$> ex_draws e) <$> exs)
              ++ drop (k + n) (noise_in_data_probs bufs))
           (take k (noise_probs bufs)
              ++ ((λ e, (λ j, nth j (noise self) 0%R) <$> ex_draws e) <$> exs)
              ++ drop (k + n) (noise_probs bufs))),
     advance (n * noise_ratio self) w).
Proof.
  induction ts as [|t ts IH]; intros k [dp nd np] w Hr Hlen Hts Hdp Hnd Hnp HndK HnpK;
    cbn [data_prob noise_in_data_probs noise_probs] in *; cbn zeta.
  - cbn [length seq zip zip_with for_each Nat.mul].
    rewrite examples_from_nil_r, advance_0, Nat.add_0_r. cbn [fmap list_fmap app].
    by rewrite !take_drop.
  - cbn [length] in *. apply Forall_cons in Hts as [Ht Hts].
    assert (Hk : k < length input) by lia.
    apply lookup_lt_is_Some_2 in Hk as [x Hx].
    rewrite (drop_S _ _ _ Hx).
    cbn [seq zip zip_with for_each examples_from fmap list_fmap].
    assert (Hbody := loop_body_run self W b input (Buffers dp nd np) k t x w Hr Hx Ht).
    cbn [data_prob noise_in_data_probs noise_probs] in Hbody.
    rewrite (bind_ok _ _ _ _ _ (Hbody ltac:(lia) ltac:(lia) ltac:(lia) HndK HnpK)).
    clear Hbody.
    rewrite (IH (S k)); cbn [data_prob noise_in_data_probs noise_probs].
    + rewrite advance_advance.
      cbn [tape rng_pos advance].
      rewrite !buffer_step by lia.
      do 2 f_equal.
    + by apply forward_ready_advance.
    + lia.
    + done.
    + by rewrite length_insert.
    + by rewrite length_insert.
    + by rewrite length_insert.
    + apply Forall_insert; [done|]. by rewrite !length_fmap, length_seq.
    + apply Forall_insert; [done|]. by rewrite !length_fmap, length_seq.
Qed.

(** ** The loss *)

Lemma zip_with_fmap_same {A B C D} (f : B → C → D) (g : A → B) (h : A → C) l :
  zip_with f (g <$> l) (h <$> l) = (λ a, f (g a) (h a)) <$> l.
Proof. by rewrite zip_with_fmap_l, zip_with_fmap_r, zip_with_diag. Qed.

Lemma rnn_loss_examples self W b exs :
  rnn_loss (noise_ratio self)
    ((λ e, model_prob self W b (ex_input e) (ex_target e)) <$> exs)
    ((λ i, nth i (noise self) 0%R) <$> (ex_target <$> exs)) =
  data_term self W b <$> exs.
Proof.
  unfold rnn_loss, tlog, scale.
  rewrite <- !list_fmap_compose, !zip_with_fmap_same, <- list_fmap_compose.
  done.
Qed.

Lemma noise_loss_examples self W b exs :
  noise_loss (noise_ratio self)
    ((λ e, (λ j, nth j (noise self) 0%R) <$> ex_draws e) <$> exs)
    ((λ e, model_prob self W b (ex_input e) <$> ex_draws e) <$> exs) =
  noise_term self W b <$> exs.
Proof.
  unfold noise_loss. cbn zeta.
  rewrite <- !list_fmap_compose, !zip_with_fmap_same, <- !list_fmap_compose.
  apply list_fmap_ext. intros _ e _. cbn.
  unfold noise_term, tlog, scale. f_equal.
  rewrite <- !list_fmap_compose, !zip_with_fmap_same, <- !list_fmap_compose.
  done.
Qed.

(** Everything [forward] does, for a call that runs to its end. *)
Lemma forward_run self W b input target w :
  forward_ready self W b w →
  length input = length target →
  Forall (λ t, t < length (noise self)) target →
  forward self input target w =
    (Ok (nce_loss self W b (examples self input target w)),
     advance (length target * noise_ratio self) w).
Proof.
  intros Hr Hlen Hts. unfold forward.
  assert (Hc := ready_cuda _ _ _ _ Hr).
  rewrite bool_decide_eq_true_2 by done. cbn [py_assert].
  rewrite bind_run, ret_run.
  rewrite (bind_ok _ _ _ _ _ (to_cuda_run _ w Hc)).
  rewrite (bind_ok _ _ _ _ _ (to_cuda_run _ w Hc)).
  rewrite (bind_ok _ _ _ _ _ (to_cuda_run _ w Hc)).
  rewrite (bind_ok _ _ _ _ _ (cuda_synchronize_run w Hc)).
  unfold enumerate. rewrite length_replicate.
  assert (Hloop := for_each_loop_body_run self W b input target 0
    (Buffers (replicate (length target) 0%R)
       (replicate (length target) (replicate (noise_ratio self) 0%R))
       (replicate (length target) (replicate (noise_ratio self) 0%R)))
    w Hr Hlen Hts).
  cbn [data_prob noise_in_data_probs noise_probs] in Hloop.
  rewrite !length_replicate in Hloop.
  assert (HK : Forall (λ r : list R, length r = noise_ratio self)
                 (replicate (length target) (replicate (noise_ratio self) 0%R))).
  { apply Forall_replicate. by rewrite length_replicate. }
  rewrite (bind_ok _ _ _ _ _ (Hloop (eq_sym Hlen) (eq_sym Hlen) (eq_sym Hlen) HK HK)).
  clear Hloop.
  cbn [data_prob noise_in_data_probs noise_probs take drop Nat.add app].
  rewrite drop_0, !take_0. cbn [app].
  rewrite !drop_ge by (by rewrite length_replicate). rewrite !app_nil_r.
  fold (examples self input target w). set (exs := examples self input target w).
  rewrite (bind_ok _ _ _ _ _ (gather_in_range _ 0%R _ _ Hts)).
  rewrite ret_run. f_equal. f_equal.
  assert (Htargets : target = ex_target <$> exs)
    by (symmetry; by apply examples_from_targets).
  replace ((λ i, nth i (noise self) 0%R) <$> target)
    with ((λ i, nth i (noise self) 0%R) <$> (ex_target <$> exs))
    by (by rewrite <- Htargets).
  rewrite rnn_loss_examples, noise_loss_examples, zip_with_fmap_same.
  unfold nce_loss, total_loss.
  replace (length exs) with (length target)
    by (symmetry; by apply examples_from_length).
  destruct (size_average self); f_equal; lra.
Qed.

Lemma demo_valid : valid_distribution (noise Demo.self) = true.
Proof.
  unfold valid_distribution. cbn.
  rewrite !bool_decide_eq_true_2; [done | lra..].
Qed.

Lemma demo_ready : forward_ready Demo.self Demo.W Demo.b Demo.w.
Proof. constructor; try done; [apply demo_valid | cbn; lia | cbn; lia]. Qed.

Lemma demo_target_in_range :
  Forall (λ t, t < length (noise Demo.self)) Demo.target.
Proof. repeat constructor. Qed.

(** C1. A call of [forward] on a batch of [N] examples, with tensors
    whose sizes fit and tokens in range, returns the loss of the specification: minus the sum over the
    examples of the data term and the noise term, divided by [N] when
    [size_average] is set; each example has [noise_ratio] noise samples. *)
Theorem forward_returns_nce_loss
    (self : NCELoss) (W : list (list R)) (b : list R) (E : nat)
    (input : list (list R)) (target : list nat) (w : world) :
  forward_ready self W b w →
  Forall (λ row, length row = E) W →
  Forall (λ x, length x = E) input →
  length input = length target →
  Forall (λ t, t < length (noise self)) target →
  let exs := examples self input target w in
  let N := length target in
  forward self input target w =
    (Ok (if size_average self
         then (- Rsum ((λ e, data_term self W b e + noise_term self W b e) <$> exs)
               / INR N)%R
         else (- Rsum ((λ e, data_term self W b e + noise_term self W b e) <$> exs))%R),
     advance (N * noise_ratio self) w)
  ∧ length exs = N
  ∧ Forall (λ e, length (ex_draws e) = noise_ratio self) exs.
Proof.
  intros Hr _ _ Hlen Hts exs N. split; [|split].
  - rewrite (forward_run self W b input target w Hr Hlen Hts).
    unfold nce_loss, total_loss. fold exs.
    replace (length exs) with N; [done|].
    symmetry. by apply examples_from_length.
  - by apply examples_from_length.
  - apply examples_from_draws.
Qed.

Lemma forward_returns_nce_loss_witness :
  forward Demo.self Demo.input Demo.target Demo.w =
    (Ok (- Rsum ((λ e, data_term Demo.self Demo.W Demo.b e
                       + noise_term Demo.self Demo.W Demo.b e)
                 <$> examples Demo.self Demo.input Demo.target Demo.w)
         / INR 1)%R,
     advance 2 Demo.w).
Proof.
  apply (forward_returns_nce_loss Demo.self Demo.W Demo.b 2
           Demo.input Demo.target Demo.w demo_ready).
  - repeat constructor.
  - repeat constructor.
  - reflexivity.
  - apply demo_target_in_range.
Defined.

(** The loss of the small instance, by hand: the target has logit 2 and
    both noise samples have logit 1. *)
Example forward_demo_value :
  fst (forward Demo.self Demo.input Demo.target Demo.w) =
  Ok (- (ln (exp 2 / (exp 2 + 1)) + (ln (1 / (exp 1 + 1)) + ln (1 / (exp 1 + 1)))))%R.
Proof.
  rewrite (forward_run Demo.self Demo.W Demo.b Demo.input Demo.target Demo.w
             demo_ready eq_refl demo_target_in_range).
  cbn [fst]. f_equal.
  unfold nce_loss, total_loss, data_term, noise_term, model_prob, logit, dot, Rsum.
  cbn. rewrite Rdiv_1_r.
  replace (1 * 0 + (2 * 1 + 0) + 0 - 0)%R with 2%R by lra.
  replace (1 * 1 + (2 * 0 + 0) + 0 - 0)%R with 1%R by lra.
  replace ((1 + 1) * (1 / 2))%R with 1%R by lra.
  f_equal. lra.
Qed.

Lemma scenario_ready :
  forward_ready Scenario.self Scenario.W Scenario.b Scenario.w.
Proof.
  constructor; try done.
  - unfold valid_distribution. cbn.
    rewrite !bool_decide_eq_true_2; [done | lra..].
  - cbn. lia.
  - intros i. cbn [tape Scenario.w Scenario.self noise length].
    pose proof (Nat.mod_upper_bound i 2). lia.
Qed.

(** The loss of the scenario of the specification, by hand. *)
Example forward_scenario_value :
  fst (forward Scenario.self Scenario.input Scenario.target Scenario.w) =
  Ok (- (ln (exp 3 / (exp 3 + 2/5))
         + (ln ((2/5) / (exp 1 + 2/5)) + ln ((2/5) / (exp 2 + 2/5)))))%R.
Proof.
  rewrite (forward_run Scenario.self Scenario.W Scenario.b Scenario.input
             Scenario.target Scenario.w scenario_ready eq_refl).
  2:{ repeat constructor. }
  cbn [fst]. f_equal.
  unfold nce_loss, total_loss, data_term, noise_term, model_prob, logit, dot, Rsum.
  cbn. rewrite Rdiv_1_r.
  replace (1 * 0 + (2 * 0 + (3 * 1 + 0)) + 0 - 0)%R with 3%R by lra.
  replace (1 * 1 + (2 * 0 + (3 * 0 + 0)) + 0 - 0)%R with 1%R by lra.
  replace (1 * 0 + (2 * 1 + (3 * 0 + 0)) + 0 - 0)%R with 2%R by lra.
  replace ((1 + 1) * (1 / 5))%R with (2 / 5)%R by lra.
  f_equal. lra.
Qed.

(** ** The layout of the pseudo-probabilities *)

Lemma bind_inv_ok {A B} (m : M A) (f : A → M B) w b w' :
  (m ≫= f) w = (Ok b, w') →
  ∃ a w1, m w = (Ok a, w1) ∧ f a w1 = (Ok b, w').
Proof.
  rewrite bind_run. destruct (m w) as [[a|e] w1]; [eauto|done].
Qed.

Lemma examples_from_lookup tp K xs : ∀ ts p idx e,
  examples_from tp p K xs ts !! idx = Some e →
  xs !! idx = Some (ex_input e)
  ∧ ts !! idx = Some (ex_target e)
  ∧ ex_draws e = tp <$> seq (p + idx * K) K.
Proof.
  induction xs as [|x xs IH]; intros [|t ts] p idx e He; cbn in He; try done.
  destruct idx as [|idx]; cbn in He.
  - inversion He; subst; cbn. by rewrite Nat.add_0_r.
  - apply IH in He as (Hx & Ht & Hd). cbn [lookup list_lookup].
    repeat split; [done..|]. rewrite Hd. do 2 f_equal. lia.
Qed.

(** C3. In a call of [forward], the projection of every example is
    evaluated on [1 + noise_ratio] indices, the target first and the noise
    samples after it in the order drawn; [_get_prob] returns
    [exp(logit - norm_term)] of the target and of every noise sample, in
    that order, and the loop stores them at the example's position of
    [data_prob] and [noise_in_data_probs].  [norm_term] is the field set
    at construction, [9] when the argument is left out. *)
Theorem get_prob_layout
    (self : NCELoss) (W : list (list R)) (b : list R) (E : nat)
    (input : list (list R)) (target : list nat) (w : world) :
  forward_ready self W b w →
  Forall (λ row, length row = E) W →
  Forall (λ x, length x = E) input →
  length input = length target →
  Forall (λ t, t < length (noise self)) target →
  (∃ bufs,
     for_each (loop_body self input) (zeros self (length target))
       (enumerate target) w =
       (Ok bufs, advance (length target * noise_ratio self) w)
     ∧ ∀ idx e, examples self input target w !! idx = Some e →
         input !! idx = Some (ex_input e)
         ∧ target !! idx = Some (ex_target e)
         ∧ multinomial (noise self) (noise_ratio self)
             (advance (idx * noise_ratio self) w) =
             (Ok (ex_draws e), advance (idx * noise_ratio self + noise_ratio self) w)
         ∧ get_prob_indices (ex_target e) (ex_draws e)
             = ex_target e :: ex_draws e
         ∧ length (get_prob_indices (ex_target e) (ex_draws e))
             = 1 + noise_ratio self
         ∧ _get_prob self (ex_input e) (ex_target e) (ex_draws e) w =
             (Ok (exp (logit W b (ex_input e) (ex_target e) - norm_term self),
                  (λ j, exp (logit W b (ex_input e) j - norm_term self))
                    <$> ex_draws e), w)
         ∧ data_prob bufs !! idx =
             Some (exp (logit W b (ex_input e) (ex_target e) - norm_term self))
         ∧ noise_in_data_probs bufs !! idx =
             Some ((λ j, exp (logit W b (ex_input e) j - norm_term self))
                     <$> ex_draws e))
  ∧ (∀ ntokens emb_size noise noise_ratio norm size_average decoder_weight
       w0 self0 w1,
       NCELoss_init ntokens emb_size noise noise_ratio norm size_average
         decoder_weight w0 = (Ok self0, w1) →
       norm_term self0 = default 9%R norm).
Proof.
  intros Hr _ _ Hlen Hts. split.
  - assert (Hloop := for_each_loop_body_run self W b input target 0
      (zeros self (length target)) w Hr Hlen Hts).
    unfold zeros in *. cbn [data_prob noise_in_data_probs noise_probs] in Hloop.
    rewrite !length_replicate in Hloop.
    assert (HK : Forall (λ r : list R, length r = noise_ratio self)
                   (replicate (length target) (replicate (noise_ratio self) 0%R))).
    { apply Forall_replicate. by rewrite length_replicate. }
    specialize (Hloop (eq_sym Hlen) (eq_sym Hlen) (eq_sym Hlen) HK HK).
    cbn zeta in Hloop.
    rewrite drop_0, !take_0 in Hloop. cbn [app Nat.add] in Hloop.
    rewrite !drop_ge in Hloop by (by rewrite length_replicate).
    rewrite !app_nil_r in Hloop.
    fold (examples self input target w) in Hloop.
    eexists. split; [exact Hloop|].
    cbn [data_prob noise_in_data_probs].
    intros idx e He.
    apply examples_from_lookup in He as He'. destruct He' as (Hx & Ht & Hd).
    assert (Hdr : Forall (λ i, i < length (noise self)) (ex_draws e))
      by (rewrite Hd; apply (draws_in_range _ _ _ _ _ _ Hr)).
    assert (Hti : ex_target e < length (noise self))
      by apply (Forall_lookup_1 _ _ _ _ Hts Ht).
    repeat split; try done.
    + rewrite multinomial_run, advance_advance;
        [|apply (ready_noise _ _ _ _ Hr)|apply (ready_ratio _ _ _ _ Hr)].
      by rewrite Hd.
    + cbn. by rewrite Hd, length_fmap, length_seq.
    + apply (_get_prob_run self W b _ _ _ w
               (ready_weight _ _ _ _ Hr) (ready_bias _ _ _ _ Hr)).
      * rewrite (ready_rows _ _ _ _ Hr). by constructor.
      * rewrite (ready_entries _ _ _ _ Hr). by constructor.
    + by rewrite list_lookup_fmap, He.
    + by rewrite list_lookup_fmap, He.
  - intros ntokens emb_size nz nr norm sa dw w0 self0 w1 Hinit.
    unfold NCELoss_init in Hinit.
    apply bind_inv_ok in Hinit as (dec & w2 & _ & Hinit).
    apply bind_inv_ok in Hinit as (dec' & w3 & _ & Hinit).
    by inversion Hinit.
Qed.

Lemma get_prob_layout_witness :
  ∃ bufs,
    for_each (loop_body Demo.self Demo.input) (zeros Demo.self 1)
      (enumerate Demo.target) Demo.w = (Ok bufs, advance 2 Demo.w)
    ∧ data_prob bufs !! 0 = Some (exp (logit Demo.W Demo.b [1; 2]%R 1 - 0)).
Proof.
  destruct (get_prob_layout Demo.self Demo.W Demo.b 2 Demo.input Demo.target
              Demo.w demo_ready) as [(bufs & Hrun & Hex) _].
  - repeat constructor.
  - repeat constructor.
  - reflexivity.
  - apply demo_target_in_range.
  - exists bufs. split; [exact Hrun|].
    by destruct (Hex 0 (MkExample [1; 2]%R 1 [0; 0]) eq_refl)
      as (_ & _ & _ & _ & _ & _ & Hdp & _).
Defined.

(** ** The reduction *)

Lemma bind_map_run {A B C} (g : B → C) (m : M A) (f : A → M B) (f' : A → M C) w :
  (∀ a w1, f' a w1 = map_run g (f a w1)) →
  (m ≫= f') w = map_run g ((m ≫= f) w).
Proof.
  intros H. rewrite !bind_run. destruct (m w) as [[a|e] w1]; [apply H|done].
Qed.

(** C4. On the same inputs, in the same state of the generator, [forward]
    with [size_average] set returns the loss it returns with
    [size_average] cleared, divided by the batch size [N >= 1]; when the
    one raises, so does the other. *)
Theorem size_average_divides_by_batch_size
    (self : NCELoss) (input : list (list R)) (target : list nat) (w : world) :
  1 ≤ length target →
  forward (with_size_average true self) input target w =
  map_run (λ loss, (loss / INR (length target))%R)
    (forward (with_size_average false self) input target w).
Proof.
  intros _. unfold forward.
  repeat (apply bind_map_run; intros).
  done.
Qed.

Lemma size_average_divides_by_batch_size_witness :
  forward (with_size_average true Demo.self) Demo.input Demo.target Demo.w =
  map_run (λ loss, (loss / INR 1)%R)
    (forward (with_size_average false Demo.self) Demo.input Demo.target Demo.w).
Proof.
  apply (size_average_divides_by_batch_size Demo.self Demo.input Demo.target Demo.w).
  cbn. lia.
Defined.

(** ** Rejected calls *)

(** C5. A call of [forward] whose target has not one entry per row of
    the input raises [AssertionError] at once: nothing is allocated, no
    noise is drawn and the state is unchanged. *)
Theorem forward_rejects_size_mismatch
    (self : NCELoss) (input : list (list R)) (target : list nat) (w : world) :
  length target ≠ length input →
  forward self input target w = (Raise AssertionError, w).
Proof.
  intros Hne. unfold forward.
  rewrite bool_decide_eq_false_2 by congruence. done.
Qed.

Lemma forward_rejects_size_mismatch_witness :
  forward Demo.self Demo.input [1; 1] Demo.w = (Raise AssertionError, Demo.w).
Proof.
  apply forward_rejects_size_mismatch. cbn. lia.
Defined.

Lemma forward_without_cuda self input target w :
  cuda_available w = false →
  length input = length target →
  forward self input target w = (Raise CudaError, w).
Proof.
  intros Hc Hlen. unfold forward.
  rewrite bool_decide_eq_true_2 by done. cbn [py_assert].
  rewrite bind_run, ret_run.
  apply bind_raise. unfold to_cuda. by rewrite Hc.
Qed.

(** C9, as the code has it.  [forward] puts its three buffers on the CUDA
    device and synchronises with it: on a machine without a CUDA device
    every call with matching sizes raises at the first allocation, before
    any noise is drawn. *)
Theorem forward_requires_cuda
    (self : NCELoss) (input : list (list R)) (target : list nat) (w : world) :
  cuda_available w = false →
  length input = length target →
  forward self input target w = (Raise CudaError, w).
Proof. apply forward_without_cuda. Qed.

Lemma forward_requires_cuda_witness :
  forward Demo.self Demo.input Demo.target host_world =
    (Raise CudaError, host_world).
Proof.
  apply forward_requires_cuda; reflexivity.
Defined.

(** C9, as stated, fails: with everything in host memory and no CUDA
    device the call does not succeed, although the same call succeeds
    once a device is there. *)
Lemma forward_fails_on_host :
  (∀ loss w', forward Demo.self Demo.input Demo.target host_world ≠ (Ok loss, w'))
  ∧ ∃ loss w', forward Demo.self Demo.input Demo.target Demo.w = (Ok loss, w').
Proof.
  split.
  - intros loss w'.
    by rewrite (forward_without_cuda Demo.self Demo.input Demo.target
                  host_world eq_refl eq_refl).
  - rewrite (forward_run Demo.self Demo.W Demo.b Demo.input Demo.target Demo.w
               demo_ready eq_refl demo_target_in_range).
    eauto.
Qed.

(** ** Monotonicity of the data term *)

Lemma odds_increasing (p p' c : R) :
  (0 < p → p < p' → 0 < c → p / (p + c) < p' / (p' + c))%R.
Proof.
  intros Hp Hpp Hc.
  replace (p / (p + c))%R with (1 - c / (p + c))%R by (field; lra).
  replace (p' / (p' + c))%R with (1 - c / (p' + c))%R by (field; lra).
  apply Rplus_lt_compat_l, Ropp_lt_contravar.
  unfold Rdiv. apply Rmult_lt_compat_l; [done|].
  apply Rinv_lt_contravar; nra.
Qed.

Lemma data_term_zero_without_noise self W b e :
  (INR (noise_ratio self) * nth (ex_target e) (noise self) 0 = 0)%R →
  data_term self W b e = 0%R.
Proof.
  intros Hc. unfold data_term, model_prob. cbn zeta. rewrite Hc.
  set (p := exp _). assert (0 < p)%R by apply exp_pos.
  replace (p / (p + 0))%R with 1%R by (field; lra).
  apply ln_1.
Qed.

(** C7, as the code has it, with tensor elements as real numbers (exact
    arithmetic).  A strictly larger logit of the target, whatever else
    changes, gives a strictly smaller negated data term when the scaled
    noise probability of the target, [noise_ratio * noise[target]], is
    positive; when that product is zero the data term is [ln 1 = 0] for
    both logits, and so unchanged. *)
Theorem data_term_strictly_decreases
    (self : NCELoss) (W W' : list (list R)) (b b' : list R) (e e' : example) :
  ex_target e' = ex_target e →
  (logit W b (ex_input e) (ex_target e)
     < logit W' b' (ex_input e') (ex_target e'))%R →
  ((0 < INR (noise_ratio self) * nth (ex_target e) (noise self) 0)%R →
   (- data_term self W' b' e' < - data_term self W b e)%R)
  ∧ ((INR (noise_ratio self) * nth (ex_target e) (noise self) 0 = 0)%R →
     data_term self W b e = 0%R ∧ data_term self W' b' e' = 0%R).
Proof.
  intros Ht Hl. split.
  - intros Hc. unfold data_term, model_prob. cbn zeta. rewrite Ht in *.
    set (c := (INR (noise_ratio self) * nth (ex_target e) (noise self) 0)%R) in *.
    set (p := exp (logit W b (ex_input e) (ex_target e) - norm_term self)).
    set (p' := exp (logit W' b' (ex_input e') (ex_target e) - norm_term self)).
    assert (Hp : (0 < p)%R) by apply exp_pos.
    assert (Hpp : (p < p')%R) by (apply exp_increasing; lra).
    apply Ropp_lt_contravar, ln_increasing.
    + apply Rdiv_lt_0_compat; lra.
    + by apply odds_increasing.
  - intros Hc. split; apply data_term_zero_without_noise; [done|by rewrite Ht].
Qed.

Lemma data_term_strictly_decreases_witness :
  (- data_term Demo.self Demo.W [0; 1] demo_example
   < - data_term Demo.self Demo.W Demo.b demo_example)%R
  ∧ data_term Flat.self Flat.W Flat.b Flat.e = 0%R
  ∧ data_term Flat.self Flat.W Flat.b' Flat.e = 0%R.
Proof.
  split.
  - apply (data_term_strictly_decreases Demo.self Demo.W Demo.W Demo.b
             [0; 1]%R demo_example demo_example).
    + reflexivity.
    + unfold logit, dot, Rsum. cbn. lra.
    + cbn. lra.
  - apply (data_term_strictly_decreases Flat.self Flat.W Flat.W Flat.b
             Flat.b' Flat.e Flat.e).
    + reflexivity.
    + unfold logit, dot, Rsum. cbn. lra.
    + cbn. lra.
Defined.

(** C7, as stated, fails: when the noise probability of the target is
    zero the data term is [ln 1 = 0] for every logit, so raising the logit
    of the target (here through its bias, from 0 to 1) does not lower the
    negated data term. *)
Lemma data_term_flat_without_noise :
  valid_distribution (noise Flat.self) = true
  ∧ (logit Flat.W Flat.b (ex_input Flat.e) (ex_target Flat.e)
       < logit Flat.W Flat.b' (ex_input Flat.e) (ex_target Flat.e))%R
  ∧ ¬ (- data_term Flat.self Flat.W Flat.b' Flat.e
       < - data_term Flat.self Flat.W Flat.b Flat.e)%R.
Proof.
  split; [|split].
  - unfold valid_distribution. cbn.
    rewrite !bool_decide_eq_true_2; [done | lra..].
  - unfold logit, dot, Rsum. cbn. lra.
  - assert (H : ∀ bb, data_term Flat.self Flat.W bb Flat.e = 0%R).
    { intros bb. unfold data_term, model_prob. cbn zeta.
      set (p := exp _). assert (0 < p)%R by apply exp_pos.
      replace (nth (ex_target Flat.e) (noise Flat.self) 0%R) with 0%R by done.
      replace (p / (p + INR (noise_ratio Flat.self) * 0))%R with 1%R
        by (field; lra).
      apply ln_1. }
    rewrite !H. lra.
Qed.

(** ** Construction *)

Lemma rand_mat_run cols : ∀ (rows : list nat) w,
  ∃ Wv n, mapM (λ _ : nat, rand_vec cols) rows w = (Ok Wv, advance n w).
Proof.
  induction rows as [|r rows IH]; intros w; cbn [mapM].
  - exists [], 0. by rewrite advance_0.
  - rewrite bind_run. unfold rand_vec at 1.
    destruct (IH (advance cols w)) as (Wv & n & HWv).
    rewrite bind_run, HWv, ret_run, advance_advance. eauto.
Qed.

Lemma alloc_run t w :
  ∃ l, alloc t w = (Ok l, set_heap (<[l:=t]> (heap w)) w) ∧ heap w !! l = None.
Proof.
  eexists. split; [done|]. apply not_elem_of_dom, is_fresh.
Qed.

(** Constructing the decoder always succeeds; it allocates two parameters
    and leaves the rest of the heap and the machine as they are. *)
Lemma IndexLinear_init_run in_features out_features w :
  ∃ dec w',
    IndexLinear_init in_features out_features w = (Ok dec, w')
    ∧ cuda_available w' = cuda_available w
    ∧ ∀ l t, heap w !! l = Some t → heap w' !! l = Some t.
Proof.
  unfold IndexLinear_init, rand_mat.
  destruct (rand_mat_run in_features (seq 0 out_features) w) as (Wv & n & HWv).
  rewrite (bind_ok _ _ _ _ _ HWv).
  rewrite bind_run. unfold rand_vec at 1.
  set (w1 := advance out_features (advance n w)).
  destruct (alloc_run (Mat Wv) w1) as (lw & Hlw & Hfw).
  rewrite (bind_ok _ _ _ _ _ Hlw).
  set (w2 := set_heap _ w1) in *.
  destruct (alloc_run (Vec (uniform (advance n w) <$>
              seq (rng_pos (advance n w)) out_features)) w2) as (lb & Hlb & Hfb).
  rewrite (bind_ok _ _ _ _ _ Hlb). rewrite ret_run.
  do 2 eexists. split; [reflexivity|]. split; [reflexivity|].
  intros l t Hl. subst w2 w1. cbn [heap set_heap advance] in *.
  assert (Hw : lw ≠ l) by (intros ->; congruence).
  assert (Hb : lb ≠ l).
  { intros ->. rewrite lookup_insert_ne in Hfb by done. congruence. }
  by rewrite !lookup_insert_ne.
Qed.

Lemma NCELoss_init_untied_run ntokens emb_size nz nr nt sa w :
  ∃ self w',
    NCELoss_init ntokens emb_size nz nr nt sa None w = (Ok self, w')
    ∧ noise self = nz
    ∧ noise_ratio self = default 10 nr
    ∧ cuda_available w' = cuda_available w.
Proof.
  unfold NCELoss_init.
  destruct (IndexLinear_init_run emb_size ntokens w) as (dec & w' & Hdec & Hc & _).
  rewrite (bind_ok _ _ _ _ _ Hdec), bind_run, !ret_run.
  do 2 eexists. by repeat split.
Qed.

(** The test [if decoder_weight:] on a tensor that is not empty. *)
Lemma NCELoss_init_tied_raises ntokens emb_size nz nr nt sa l t w :
  heap w !! l = Some t → numel t ≠ 0 →
  ∃ w', NCELoss_init ntokens emb_size nz nr nt sa (Some l) w
        = (Raise RuntimeError, w').
Proof.
  intros Hl Ht. unfold NCELoss_init.
  destruct (IndexLinear_init_run emb_size ntokens w) as (dec & w' & Hdec & _ & Hh).
  rewrite (bind_ok _ _ _ _ _ Hdec).
  exists w'. apply bind_raise.
  rewrite (bind_ok _ _ w' t w') by (unfold deref; by rewrite (Hh _ _ Hl)).
  apply bind_raise. unfold tensor_bool. by rewrite decide_False.
Qed.

(** With a distribution [torch.multinomial] rejects, a call of [forward]
    on a batch that is not empty raises when it draws its first samples. *)
Lemma forward_invalid_noise_raises self input target w :
  valid_distribution (noise self) = false →
  cuda_available w = true →
  length input = length target →
  target ≠ [] →
  forward self input target w = (Raise RuntimeError, w).
Proof.
  intros Hv Hc Hlen Hne. unfold forward.
  rewrite bool_decide_eq_true_2 by done. cbn [py_assert].
  rewrite bind_run, ret_run.
  rewrite (bind_ok _ _ _ _ _ (to_cuda_run _ w Hc)).
  rewrite (bind_ok _ _ _ _ _ (to_cuda_run _ w Hc)).
  rewrite (bind_ok _ _ _ _ _ (to_cuda_run _ w Hc)).
  rewrite (bind_ok _ _ _ _ _ (cuda_synchronize_run w Hc)).
  apply bind_raise.
  destruct target as [|t target]; [done|].
  unfold enumerate. cbn [length seq zip zip_with for_each].
  apply bind_raise. unfold loop_body. apply bind_raise.
  unfold multinomial. by rewrite Hv.
Qed.

(** C8, as the code has it.  [__init__] does not look at the noise
    distribution: construction succeeds for every vector and stores it as
    it is.  A distribution [torch.multinomial] rejects is rejected only
    later, by the first call of [forward] on a batch that is not empty. *)
Theorem init_accepts_any_noise
    (ntokens emb_size : nat) (noise_weights : list R) (ratio : option nat)
    (norm : option R) (average : option bool) (w : world) :
  ∃ self w',
    NCELoss_init ntokens emb_size noise_weights ratio norm average None w
      = (Ok self, w')
    ∧ noise self = noise_weights
    ∧ (valid_distribution noise_weights = false →
       cuda_available w = true →
       ∀ input target, length input = length target → target ≠ [] →
         forward self input target w' = (Raise RuntimeError, w')).
Proof.
  destruct (NCELoss_init_untied_run ntokens emb_size noise_weights ratio norm
              average w) as (self & w' & Hinit & Hnoise & _ & Hc).
  exists self, w'. split; [done|]. split; [done|].
  intros Hv Hcuda input target Hlen Hne.
  apply forward_invalid_noise_raises; [by rewrite Hnoise|congruence|done..].
Qed.

Lemma negative_weight_invalid : valid_distribution [(-1)%R] = false.
Proof.
  unfold valid_distribution. cbn.
  rewrite bool_decide_eq_false_2; [done|lra].
Qed.

Lemma init_accepts_any_noise_witness :
  ∃ self w',
    NCELoss_init 1 1 [(-1)%R] None None None None Demo.w = (Ok self, w')
    ∧ noise self = [(-1)%R]
    ∧ forward self [[1%R]] [0] w' = (Raise RuntimeError, w').
Proof.
  destruct (init_accepts_any_noise 1 1 [(-1)%R] None None None Demo.w)
    as (self & w' & Hinit & Hnoise & Hfwd).
  exists self, w'. split; [exact Hinit|]. split; [exact Hnoise|].
  apply Hfwd; [apply negative_weight_invalid|reflexivity|reflexivity|discriminate].
Defined.

(** C8, as stated, fails: a noise vector with a negative weight is
    accepted at construction. *)
Lemma init_accepts_negative_weight :
  valid_distribution [(-1)%R] = false
  ∧ ∃ self w',
      NCELoss_init 1 1 [(-1)%R] None None None None Demo.w = (Ok self, w').
Proof.
  split; [apply negative_weight_invalid|].
  destruct (NCELoss_init_untied_run 1 1 [(-1)%R] None None None Demo.w)
    as (self & w' & Hinit & _).
  eauto.
Qed.

(** C6.  Construction with a tied weight: the weight of the small
    instance, a 2 x 2 tensor, passed as [decoder_weight].  The test
    [if decoder_weight:] asks for the truth value of a tensor with four
    elements, which raises: the decoder's weight is never tied. *)
Theorem init_with_tied_weight_raises :
  heap Demo.w !! 1%positive = Some (Mat Demo.W)
  ∧ ∃ w', NCELoss_init 2 2 [1/2; 1/2]%R None None None (Some 1%positive) Demo.w
          = (Raise RuntimeError, w').
Proof.
  split; [done|].
  apply (NCELoss_init_tied_raises 2 2 _ None None None 1%positive (Mat Demo.W)).
  - done.
  - cbn. lia.
Qed.

(** ** Importing the module *)

(** C10. No statement of [nce.py] binds the name [profile], which the
    class body of [NCELoss] evaluates as a decorator: unless [profile] is
    among the builtins when the module is imported, the import raises
    [NameError] and binds no class; when it is there, the import binds
    [NCELoss] and [IndexLinear]. *)
Theorem import_needs_profile (builtins : gset string) :
  ("profile" ∉ (binds <$> nce_py))
  ∧ ("profile" ∉ builtins →
     import_nce builtins = Raise (NameError "profile"))
  ∧ ("profile" ∈ builtins →
     ∃ globals, import_nce builtins = Ok globals
                ∧ "NCELoss" ∈ globals ∧ "IndexLinear" ∈ globals).
Proof.
  split; [|split].
  - cbn. rewrite !not_elem_of_cons. repeat split; try done. apply not_elem_of_nil.
  - intros Hno. unfold import_nce, nce_py.
    cbn [exec_module first_unbound evaluates binds].
    rewrite decide_True by in_scope.
    rewrite decide_False; [done|].
    rewrite !elem_of_union, !elem_of_singleton, elem_of_empty.
    intuition discriminate.
  - intros Hyes. unfold import_nce, nce_py.
    cbn [exec_module first_unbound evaluates binds].
    rewrite !decide_True by in_scope.
    eexists. split; [done|]. split; in_scope.
Qed.

Lemma import_needs_profile_witness :
  import_nce python_builtins = Raise (NameError "profile")
  ∧ ∃ globals, import_nce ({["profile"]} ∪ python_builtins) = Ok globals
               ∧ "NCELoss" ∈ globals ∧ "IndexLinear" ∈ globals.
Proof.
  destruct (import_needs_profile python_builtins) as (_ & Hno & _).
  destruct (import_needs_profile ({["profile"]} ∪ python_builtins))
    as (_ & _ & Hyes).
  split.
  - apply Hno. unfold python_builtins.
    rewrite elem_of_list_to_set, !not_elem_of_cons.
    repeat split; try done. apply not_elem_of_nil.
  - apply Hyes. apply elem_of_union_l. by apply elem_of_singleton.
Defined.

(** * Further properties of the code *)

(** ** [take] *)

(** X1. Whatever the iterator, a list [take] returns has at most [count]
    items, and exactly [count] under PEP 479, where a short iterator is
    an error and never a short list. *)
Theorem take_length {Iter A} (next : Iter → option (A * Iter))
    (pep479 : bool) (iterator : Iter) (count : nat) (l : list A) (rest : Iter) :
  Py.take next pep479 iterator count = (Ok l, rest) →
  length l ≤ count ∧ (pep479 = true → length l = count).
Proof.
  revert iterator l rest.
  induction count as [|count IH]; intros iterator l rest H; cbn in H.
  - inversion H; subst. cbn. lia.
  - destruct (next iterator) as [[a it']|].
    + destruct (Py.take next pep479 it' count) as [[l'|e] it''] eqn:Hrec;
        [|done].
      inversion H; subst. destruct (IH _ _ _ Hrec) as [Hle Heq].
      cbn. split; [lia|]. intros Hp. rewrite (Heq Hp). done.
    + destruct pep479; [done|]. inversion H; subst. cbn. split; [lia|done].
Qed.

Lemma take_length_witness :
  length [1; 2] ≤ 2 ∧ (true = true → length [1; 2] = 2).
Proof.
  apply (take_length list_next true [1; 2; 3] 2 [1; 2] [3]). reflexivity.
Defined.

(** X2. On an iterator with at least [count] items left, [take] returns
    the next [count] items in order and leaves the iterator on the item
    after them, with or without PEP 479. *)
Theorem take_enough {A} (pep479 : bool) (it : list A) (count : nat) :
  count ≤ length it →
  Py.take list_next pep479 it count = (Ok (take count it), drop count it).
Proof.
  revert it. induction count as [|count IH]; intros it Hlen; [done|].
  destruct it as [|a it]; cbn in Hlen; [lia|].
  cbn [Py.take list_next]. rewrite IH by lia. done.
Qed.

Lemma take_enough_witness :
  Py.take list_next true [1; 2; 3] 2 = (Ok [1; 2], [3]).
Proof.
  apply (take_enough true [1; 2; 3] 2). cbn. lia.
Defined.

(** X3. On an iterator with fewer than [count] items left, [take]
    exhausts it; without PEP 479 it returns the items there were, a list
    shorter than asked for, and with PEP 479 it raises [RuntimeError]. *)
Theorem take_exhausted {A} (pep479 : bool) (it : list A) (count : nat) :
  length it < count →
  Py.take list_next pep479 it count =
    (if pep479 then Raise RuntimeError else Ok it, []).
Proof.
  revert it. induction count as [|count IH]; intros it Hlen; [lia|].
  destruct it as [|a it]; cbn [Py.take list_next].
  - done.
  - cbn in Hlen. rewrite IH by lia. by destruct pep479.
Qed.

Lemma take_exhausted_witness :
  Py.take list_next false [1; 2] 5 = (Ok [1; 2], []).
Proof.
  apply (take_exhausted false [1; 2] 5). cbn. lia.
Defined.

(** X4. Without PEP 479, taking [n + m] items is taking [n] items and then
    [m] more from where the iterator was left, whatever is left in it. *)
Theorem take_add {A} (it : list A) (n m : nat) :
  Py.take list_next false it (n + m) =
  match Py.take list_next false it n with
  | (Ok l1, it1) =>
      match Py.take list_next false it1 m with
      | (Ok l2, it2) => (Ok (l1 ++ l2), it2)
      | (Raise e, it2) => (Raise e, it2)
      end
  | (Raise e, it1) => (Raise e, it1)
  end.
Proof.
  revert it. induction n as [|n IH]; intros it.
  - cbn [Nat.add Py.take].
    by destruct (Py.take list_next false it m) as [[l2|e] it2].
  - destruct it as [|a it].
    + cbn [Nat.add Py.take list_next]. by destruct m.
    + cbn [Nat.add Py.take list_next]. rewrite IH.
      destruct (Py.take list_next false it n) as [[l1|e] it1]; [|done].
      by destruct (Py.take list_next false it1 m) as [[l2|e] it2].
Qed.

(** ** [IndexLinear.forward] and [_get_prob] *)

Lemma deref_inv l t w w' :
  deref l w = (Ok t, w') → w' = w ∧ heap w !! l = Some t.
Proof.
  unfold deref. destruct (heap w !! l); [|done]. by inversion 1.
Qed.

Lemma deref_mat_inv l W w w' :
  deref_mat l w = (Ok W, w') → w' = w ∧ heap w !! l = Some (Mat W).
Proof.
  unfold deref_mat. intros H.
  apply bind_inv_ok in H as (t & w1 & Ht & H).
  apply deref_inv in Ht as [-> Ht]. destruct t; [done|]. by inversion H; subst.
Qed.

Lemma deref_vec_inv l v w w' :
  deref_vec l w = (Ok v, w') → w' = w ∧ heap w !! l = Some (Vec v).
Proof.
  unfold deref_vec. intros H.
  apply bind_inv_ok in H as (t & w1 & Ht & H).
  apply deref_inv in Ht as [-> Ht]. destruct t; [|done]. by inversion H; subst.
Qed.

Lemma gather_inv {A} (l : list A) indices k w w' :
  gather l indices w = (Ok k, w') →
  w' = w ∧ mapM (l !!.) indices = Some k.
Proof.
  rewrite gather_run. destruct (mapM (l !!.) indices); [|done].
  by inversion 1.
Qed.

(** A call of [IndexLinear.forward] that returns has read a weight and a
    bias from the heap and has gathered one row and one entry per index. *)
Lemma IndexLinear_forward_inv self input indices out w w' :
  IndexLinear_forward self input indices w = (Ok out, w') →
  w' = w ∧ ∃ W b Wi bi,
    heap w !! weight self = Some (Mat W)
    ∧ heap w !! bias self = Some (Vec b)
    ∧ mapM (W !!.) indices = Some Wi
    ∧ mapM (b !!.) indices = Some bi
    ∧ out = F_linear input Wi bi.
Proof.
  unfold IndexLinear_forward. intros H.
  apply bind_inv_ok in H as (W & w1 & HW & H).
  apply deref_mat_inv in HW as [-> HW].
  apply bind_inv_ok in H as (b & w1 & Hb & H).
  apply deref_vec_inv in Hb as [-> Hb].
  apply bind_inv_ok in H as (Wi & w1 & HWi & H).
  apply gather_inv in HWi as [-> HWi].
  apply bind_inv_ok in H as (bi & w1 & Hbi & H).
  apply gather_inv in Hbi as [-> Hbi].
  inversion H; subst. split; [done|]. by exists W, b, Wi, bi.
Qed.

(** X5. Whenever [IndexLinear.forward] returns, its output has one row
    per row of the input and one column per index, repeated or not, and
    the state is as it was. *)
Theorem IndexLinear_forward_shape
    (self : IndexLinear) (input : list (list R)) (indices : list nat)
    (out : list (list R)) (w w' : world) :
  IndexLinear_forward self input indices w = (Ok out, w') →
  w' = w
  ∧ length out = length input
  ∧ Forall (λ row, length row = length indices) out.
Proof.
  intros H.
  apply IndexLinear_forward_inv in H
    as (-> & W & b & Wi & bi & _ & _ & HWi & Hbi & ->).
  apply length_mapM in HWi, Hbi.
  split; [done|]. unfold F_linear. split; [by rewrite length_fmap|].
  apply Forall_fmap, Forall_forall. intros x _. cbn.
  rewrite length_zip_with, length_fmap. lia.
Qed.

Lemma IndexLinear_forward_shape_witness :
  id_world = id_world
  ∧ length [logit [[1; 0]; [0; 1]]%R [0; 0]%R [1; 2]%R <$> [1; 1; 0]]
    = length [[1; 2]%R]
  ∧ Forall (λ row : list R, length row = length [1; 1; 0])
      [logit [[1; 0]; [0; 1]]%R [0; 0]%R [1; 2]%R <$> [1; 1; 0]].
Proof.
  apply (IndexLinear_forward_shape id_decoder [[1; 2]%R] [1; 1; 0] _ id_world).
  apply (IndexLinear_forward_in_range id_decoder [[1; 0]; [0; 1]]%R [0; 0]%R);
    try reflexivity; repeat constructor.
Defined.

(** X6. On a batch of embeddings and indices in range, entry [(n, m)] of
    the output of [IndexLinear.forward] is the logit of index [m] for
    embedding [n]: [dot(input[n], weight[indices[m]]) + bias[indices[m]]]. *)
Theorem IndexLinear_forward_batch
    (self : IndexLinear) (W : list (list R)) (b : list R)
    (input : list (list R)) (indices : list nat) (w : world) :
  heap w !! weight self = Some (Mat W) →
  heap w !! bias self = Some (Vec b) →
  length b = length W →
  Forall (λ row, Forall (λ x, length x = length row) input) W →
  Forall (λ i, i < length W) indices →
  IndexLinear_forward self input indices w =
    (Ok ((λ x, logit W b x <$> indices) <$> input), w).
Proof.
  intros HW Hb Hlen _ Hi.
  rewrite (IndexLinear_forward_run _ _ _ _ _ _ HW Hb).
  rewrite (mapM_lookup_in_range W [] indices Hi). cbn.
  rewrite (mapM_lookup_in_range b 0%R indices) by by rewrite Hlen.
  cbn. do 2 f_equal. unfold F_linear. apply list_fmap_ext. intros _ x _.
  clear. induction indices as [|i indices IH]; [done|].
  cbn. by rewrite IH.
Qed.

Lemma IndexLinear_forward_batch_witness :
  IndexLinear_forward id_decoder [[1; 2]; [3; 4]]%R [1; 1; 0] id_world =
    (Ok ((λ x, logit [[1; 0]; [0; 1]]%R [0; 0]%R x <$> [1; 1; 0])
           <$> [[1; 2]; [3; 4]]%R), id_world).
Proof.
  apply (IndexLinear_forward_batch id_decoder [[1; 0]; [0; 1]]%R [0; 0]%R);
    try reflexivity; repeat constructor.
Defined.

Lemma IndexLinear_forward_index_error self W b input indices w :
  heap w !! weight self = Some (Mat W) →
  heap w !! bias self = Some (Vec b) →
  Exists (λ i, length W ≤ i ∨ length b ≤ i) indices →
  IndexLinear_forward self input indices w = (Raise IndexError, w).
Proof.
  intros HW Hb Hex.
  rewrite (IndexLinear_forward_run _ _ _ _ _ _ HW Hb).
  destruct (mapM (W !!.) indices) as [Wi|] eqn:HWi; cbn; [|done].
  destruct (mapM (b !!.) indices) as [bi|] eqn:Hbi; cbn; [|done].
  exfalso. apply Exists_exists in Hex as (i & Hin & Hi).
  assert (HsW : is_Some (mapM (W !!.) indices)) by (by rewrite HWi).
  assert (Hsb : is_Some (mapM (b !!.) indices)) by (by rewrite Hbi).
  apply mapM_is_Some_1 in HsW, Hsb.
  rewrite Forall_forall in HsW. rewrite Forall_forall in Hsb.
  apply HsW in Hin as HiW. apply Hsb in Hin as Hib. cbn in HiW, Hib.
  apply lookup_lt_is_Some in HiW, Hib. lia.
Qed.

(** X7. An index with no row in the weight, or no entry in the bias,
    makes [IndexLinear.forward] raise [IndexError]; the index is never
    wrapped or clamped, and the state is as it was. *)
Theorem IndexLinear_forward_out_of_range
    (self : IndexLinear) (W : list (list R)) (b : list R)
    (input : list (list R)) (indices : list nat) (w : world) :
  heap w !! weight self = Some (Mat W) →
  heap w !! bias self = Some (Vec b) →
  Exists (λ i, length W ≤ i ∨ length b ≤ i) indices →
  IndexLinear_forward self input indices w = (Raise IndexError, w).
Proof. apply IndexLinear_forward_index_error. Qed.

Lemma IndexLinear_forward_out_of_range_witness :
  IndexLinear_forward id_decoder [[1; 2]%R] [0; 2] id_world =
    (Raise IndexError, id_world).
Proof.
  apply (IndexLinear_forward_out_of_range id_decoder [[1; 0]; [0; 1]]%R [0; 0]%R);
    try reflexivity.
  apply Exists_cons_tl, Exists_cons_hd. cbn. lia.
Defined.

(** X8. Whenever [_get_prob] returns, the pseudo-probability of the
    target and those of the noise samples are strictly positive, there is
    one per noise sample, and the state is as it was. *)
Theorem get_prob_positive
    (self : NCELoss) (embedding : list R) (target_idx : nat)
    (noise_idx : list nat) (p : R) (ps : list R) (w w' : world) :
  _get_prob self embedding target_idx noise_idx w = (Ok (p, ps), w') →
  w' = w
  ∧ (0 < p)%R
  ∧ Forall (λ q, (0 < q)%R) ps
  ∧ length ps = length noise_idx.
Proof.
  unfold _get_prob, get_prob_indices. intros H.
  apply bind_inv_ok in H as (out & w1 & Hout & H).
  apply IndexLinear_forward_inv in Hout
    as (-> & W & b & Wi & bi & _ & _ & HWi & Hbi & ->).
  apply length_mapM in HWi, Hbi. cbn [length] in HWi, Hbi.
  cbn [F_linear fmap list_fmap concat] in H. rewrite app_nil_r in H.
  set (row := zip_with Rplus (dot embedding <$> Wi) bi) in *.
  assert (Hrow : length row = S (length noise_idx))
    by (unfold row; rewrite length_zip_with, length_fmap; lia).
  set (probs := (λ l, exp (l - norm_term self)) <$> row) in *.
  assert (Hpos : Forall (λ q, (0 < q)%R) probs)
    by (apply Forall_fmap, Forall_forall; intros l _; apply exp_pos).
  apply bind_inv_ok in H as (p0 & w2 & Hp0 & H).
  rewrite getitem_run in Hp0.
  destruct (probs !! 0) as [q|] eqn:Hq; [|done].
  inversion Hp0; subst. inversion H; subst.
  split; [done|]. split; [apply (Forall_lookup_1 _ _ _ _ Hpos Hq)|].
  split; [by apply Forall_drop|].
  rewrite length_drop. unfold probs. rewrite length_fmap. lia.
Qed.

Lemma get_prob_positive_witness :
  Demo.w = Demo.w
  ∧ (0 < model_prob Demo.self Demo.W Demo.b [1; 2] 1)%R
  ∧ Forall (λ q, (0 < q)%R) (model_prob Demo.self Demo.W Demo.b [1; 2]%R <$> [0; 0])
  ∧ length (model_prob Demo.self Demo.W Demo.b [1; 2]%R <$> [0; 0])
    = length [0; 0].
Proof.
  apply (get_prob_positive Demo.self [1; 2]%R 1 [0; 0] _ _ Demo.w).
  apply (_get_prob_run Demo.self Demo.W Demo.b); try reflexivity;
    repeat constructor.
Defined.

(** ** What [forward] leaves alone, and a target out of range *)

Lemma stable_refl w : stable w w.
Proof. by repeat split. Qed.

Lemma stable_trans w1 w2 w3 : stable w1 w2 → stable w2 w3 → stable w1 w3.
Proof.
  intros (H1 & H2 & H3 & H4 & H5) (G1 & G2 & G3 & G4 & G5).
  repeat split; try congruence. lia.
Qed.

Lemma stable_advance n w : stable w (advance n w).
Proof. repeat split; cbn; lia. Qed.

Lemma keeps_ret {A} (a : A) : keeps_machine (mret a : M A).
Proof. intros w. apply stable_refl. Qed.

Lemma keeps_raise {A} e : keeps_machine (raise e : M A).
Proof. intros w. apply stable_refl. Qed.

Lemma keeps_bind {A B} (m : M A) (f : A → M B) :
  keeps_machine m → (∀ a, keeps_machine (f a)) → keeps_machine (m ≫= f).
Proof.
  intros Hm Hf w. rewrite bind_run. specialize (Hm w).
  destruct (m w) as [[a|e] w1]; cbn in *; [|done].
  by eapply stable_trans, Hf.
Qed.

Lemma keeps_getitem {A} (l : list A) i : keeps_machine (getitem l i).
Proof. intros w. rewrite getitem_run. apply stable_refl. Qed.

Lemma keeps_gather {A} (l : list A) indices : keeps_machine (gather l indices).
Proof. intros w. rewrite gather_run. apply stable_refl. Qed.

Lemma keeps_setitem {A} (buf : list A) i v : keeps_machine (setitem buf i v).
Proof. unfold setitem. case_decide; [apply keeps_ret|apply keeps_raise]. Qed.

Lemma keeps_setrow {A} (buf : list (list A)) i row :
  keeps_machine (setrow buf i row).
Proof.
  unfold setrow. destruct (buf !! i); [|apply keeps_raise].
  case_decide; [apply keeps_ret|apply keeps_raise].
Qed.

Lemma keeps_to_cuda {A} (x : A) : keeps_machine (to_cuda x).
Proof.
  intros w. unfold to_cuda. destruct (cuda_available w); apply stable_refl.
Qed.

Lemma keeps_deref l : keeps_machine (deref l).
Proof. intros w. unfold deref. destruct (heap w !! l); apply stable_refl. Qed.

Lemma keeps_deref_mat l : keeps_machine (deref_mat l).
Proof.
  apply keeps_bind; [apply keeps_deref|].
  intros []; [apply keeps_raise|apply keeps_ret].
Qed.

Lemma keeps_deref_vec l : keeps_machine (deref_vec l).
Proof.
  apply keeps_bind; [apply keeps_deref|].
  intros []; [apply keeps_ret|apply keeps_raise].
Qed.

Lemma keeps_multinomial p n : keeps_machine (multinomial p n).
Proof.
  intros w. unfold multinomial.
  destruct (valid_distribution p && bool_decide (0 < n));
    [apply stable_advance|apply stable_refl].
Qed.

Lemma keeps_for_each {A S} (body : S → A → M S) l :
  (∀ s a, keeps_machine (body s a)) → ∀ s, keeps_machine (for_each body s l).
Proof.
  intros Hbody. induction l as [|a l IH]; intros s; cbn [for_each].
  - apply keeps_ret.
  - apply keeps_bind; [apply Hbody|apply IH].
Qed.

Lemma keeps_IndexLinear_forward self input indices :
  keeps_machine (IndexLinear_forward self input indices).
Proof.
  unfold IndexLinear_forward.
  apply keeps_bind; [apply keeps_deref_mat|intros W].
  apply keeps_bind; [apply keeps_deref_vec|intros b].
  apply keeps_bind; [apply keeps_gather|intros Wi].
  apply keeps_bind; [apply keeps_gather|intros bi]. apply keeps_ret.
Qed.

Lemma keeps_get_prob self x t ns : keeps_machine (_get_prob self x t ns).
Proof.
  unfold _get_prob.
  apply keeps_bind; [apply keeps_IndexLinear_forward|intros out].
  apply keeps_bind; [apply keeps_getitem|intros p]. apply keeps_ret.
Qed.

Lemma keeps_loop_body self input bufs it :
  keeps_machine (loop_body self input bufs it).
Proof.
  destruct it as [idx t]. unfold loop_body, cuda_synchronize.
  repeat first
    [ apply keeps_ret
    | apply keeps_bind;
        [first [ apply keeps_multinomial | apply keeps_to_cuda
               | apply keeps_getitem | apply keeps_get_prob
               | apply keeps_setitem | apply keeps_setrow
               | apply keeps_gather ]
        | intros ? ] ].
Qed.

(** X9. A call of [forward], whether it returns or raises, writes no
    parameter and leaves the machine and the tape of the generator as
    they are; the generator only moves forward. *)
Theorem forward_writes_nothing
    (self : NCELoss) (input : list (list R)) (target : list nat) (w : world) :
  let w' := (forward self input target w).2 in
  heap w' = heap w
  ∧ cuda_available w' = cuda_available w
  ∧ tape w' = tape w
  ∧ uniform w' = uniform w
  ∧ rng_pos w ≤ rng_pos w'.
Proof.
  cbn zeta. revert w. change (keeps_machine (forward self input target)).
  unfold forward, cuda_synchronize.
  apply keeps_bind.
  { unfold py_assert. case_bool_decide; [apply keeps_ret|apply keeps_raise]. }
  intros _.
  apply keeps_bind; [apply keeps_to_cuda|intros dp0].
  apply keeps_bind; [apply keeps_to_cuda|intros nd0].
  apply keeps_bind; [apply keeps_to_cuda|intros np0].
  apply keeps_bind; [apply keeps_to_cuda|intros _].
  apply keeps_bind; [apply keeps_for_each, keeps_loop_body|intros bufs].
  apply keeps_bind; [apply keeps_gather|intros nt]. apply keeps_ret.
Qed.

Lemma for_each_app {A S} (body : S → A → M S) l1 l2 : ∀ s w,
  for_each body s (l1 ++ l2) w =
  (s' ← for_each body s l1; for_each body s' l2) w.
Proof.
  induction l1 as [|a l1 IH]; intros s w; cbn [app for_each]; [done|].
  rewrite !bind_run. destruct (body s a w) as [[s1|e] w1]; [|done].
  by rewrite IH, bind_run.
Qed.

(** The loop over examples [k, k+1, ...] whose targets are tokens runs to
    its end, also when the batch goes on after them. *)
Lemma for_each_loop_body_prefix self W b input : ∀ ts k bufs w,
  forward_ready self W b w →
  k + length ts ≤ length input →
  Forall (λ t, t < length (noise self)) ts →
  length (data_prob bufs) = length input →
  length (noise_in_data_probs bufs) = length input →
  length (noise_probs bufs) = length input →
  Forall (λ r, length r = noise_ratio self) (noise_in_data_probs bufs) →
  Forall (λ r, length r = noise_ratio self) (noise_probs bufs) →
  ∃ bufs',
    for_each (loop_body self input) bufs (zip (seq k (length ts)) ts) w =
      (Ok bufs', advance (length ts * noise_ratio self) w)
    ∧ length (data_prob bufs') = length input
    ∧ length (noise_in_data_probs bufs') = length input
    ∧ length (noise_probs bufs') = length input
    ∧ Forall (λ r, length r = noise_ratio self) (noise_in_data_probs bufs')
    ∧ Forall (λ r, length r = noise_ratio self) (noise_probs bufs').
Proof.
  induction ts as [|t ts IH]; intros k bufs w Hr Hlen Hts Hdp Hnd Hnp HndK HnpK.
  - exists bufs. cbn [length seq zip zip_with for_each Nat.mul].
    by rewrite advance_0.
  - cbn [length] in *. apply Forall_cons in Hts as [Ht Hts].
    assert (Hk : k < length input) by lia.
    apply lookup_lt_is_Some_2 in Hk as [x Hx].
    cbn [seq zip zip_with for_each].
    rewrite (bind_ok _ _ _ _ _
      (loop_body_run self W b input bufs k t x w Hr Hx Ht
         ltac:(lia) ltac:(lia) ltac:(lia) HndK HnpK)).
    set (draws := tape w <$> seq (rng_pos w) (noise_ratio self)).
    assert (Hd : ∀ {A} (f : nat → A), length (f <$> draws) = noise_ratio self)
      by (intros; unfold draws; by rewrite !length_fmap, length_seq).
    destruct (IH (S k)
      (Buffers (<[k := model_prob self W b x t]> (data_prob bufs))
         (<[k := model_prob self W b x <$> draws]> (noise_in_data_probs bufs))
         (<[k := (λ j, nth j (noise self) 0%R) <$> draws]> (noise_probs bufs)))
      (advance (noise_ratio self) w))
      as (bufs' & Hrun & Hrest);
      cbn [data_prob noise_in_data_probs noise_probs];
      rewrite ?length_insert;
      [by apply forward_ready_advance|lia|done|done|done|done
      |by apply Forall_insert|by apply Forall_insert|].
    exists bufs'. rewrite Hrun, advance_advance. split; [|exact Hrest].
    do 2 f_equal; lia.
Qed.

(** A round of the loop for a target that is no token. *)
Lemma loop_body_target_out_of_range self W b input bufs idx t x w :
  forward_ready self W b w →
  input !! idx = Some x →
  length (noise self) ≤ t →
  loop_body self input bufs (idx, t) w =
    (Raise IndexError, advance (noise_ratio self) w).
Proof.
  intros Hr Hx Ht.
  pose proof (forward_ready_advance _ _ _ _ (noise_ratio self) Hr) as Hr'.
  unfold loop_body.
  rewrite (bind_ok _ _ _ _ _
    (multinomial_run _ _ w (ready_noise _ _ _ _ Hr) (ready_ratio _ _ _ _ Hr))).
  rewrite (bind_ok _ _ _ _ _
    (cuda_synchronize_run _ (ready_cuda _ _ _ _ Hr'))).
  rewrite bind_run, getitem_run, Hx. cbn [of_option].
  apply bind_raise. unfold _get_prob. apply bind_raise.
  apply (IndexLinear_forward_index_error _ W b);
    [apply (ready_weight _ _ _ _ Hr')|apply (ready_bias _ _ _ _ Hr')|].
  apply Exists_cons_hd. left. by rewrite (ready_rows _ _ _ _ Hr).
Qed.

(** X10. With tensors whose sizes fit, a target index at or beyond the
    size of the vocabulary makes [forward] raise [IndexError] when the
    loop reaches its example: the examples before it have drawn their
    noise, and so has this one. *)
Theorem forward_target_out_of_range
    (self : NCELoss) (W : list (list R)) (b : list R) (E : nat)
    (input : list (list R)) (before after : list nat) (t : nat) (w : world) :
  forward_ready self W b w →
  Forall (λ row, length row = E) W →
  Forall (λ x, length x = E) input →
  length input = length (before ++ t :: after) →
  Forall (λ t', t' < length (noise self)) before →
  length (noise self) ≤ t →
  forward self input (before ++ t :: after) w =
    (Raise IndexError,
     advance (length before * noise_ratio self + noise_ratio self) w).
Proof.
  intros Hr _ _ Hlen Hbefore Ht. unfold forward.
  assert (Hc := ready_cuda _ _ _ _ Hr).
  rewrite bool_decide_eq_true_2 by done. cbn [py_assert].
  rewrite bind_run, ret_run.
  rewrite (bind_ok _ _ _ _ _ (to_cuda_run _ w Hc)).
  rewrite (bind_ok _ _ _ _ _ (to_cuda_run _ w Hc)).
  rewrite (bind_ok _ _ _ _ _ (to_cuda_run _ w Hc)).
  rewrite (bind_ok _ _ _ _ _ (cuda_synchronize_run w Hc)).
  apply bind_raise. rewrite length_replicate.
  assert (Hlen' := Hlen). rewrite length_app in Hlen'. cbn [length] in Hlen'.
  unfold enumerate.
  assert (Hseq : seq 0 (length (before ++ t :: after)) =
                 seq 0 (length before) ++ seq (length before) (S (length after)))
    by (rewrite length_app; cbn [length]; by rewrite seq_app).
  rewrite Hseq, zip_with_app by by rewrite length_seq.
  rewrite for_each_app.
  set (N := length (before ++ t :: after)) in *.
  assert (HK : Forall (λ r : list R, length r = noise_ratio self)
                 (replicate N (replicate (noise_ratio self) 0%R))).
  { apply Forall_replicate. by rewrite length_replicate. }
  destruct (for_each_loop_body_prefix self W b input before 0
              (Buffers (replicate N 0%R)
                 (replicate N (replicate (noise_ratio self) 0%R))
                 (replicate N (replicate (noise_ratio self) 0%R)))
              w Hr) as (bufs & Hrun & _);
    cbn [data_prob noise_in_data_probs noise_probs];
    rewrite ?length_replicate; try done; try lia.
  rewrite (bind_ok _ _ _ _ _ Hrun).
  cbn [seq zip zip_with for_each Nat.add].
  assert (Hk : length before < length input) by lia.
  apply lookup_lt_is_Some_2 in Hk as [x Hx].
  rewrite (bind_raise _ _ _ _ _
    (loop_body_target_out_of_range self W b input bufs (length before) t x _
       (forward_ready_advance _ _ _ _ _ Hr) Hx Ht)).
  by rewrite advance_advance.
Qed.

Lemma forward_target_out_of_range_witness :
  forward Demo.self [[1; 2]; [3; 4]]%R ([1] ++ 2 :: []) Demo.w =
    (Raise IndexError, advance (1 * 2 + 2) Demo.w).
Proof.
  apply (forward_target_out_of_range Demo.self Demo.W Demo.b 2).
  - apply demo_ready.
  - repeat constructor.
  - repeat constructor.
  - reflexivity.
  - repeat constructor.
  - cbn. lia.
Defined.

(** ** The sign and the slope of the loss *)

Lemma valid_distribution_nonneg p i :
  valid_distribution p = true → (0 <= nth i p 0)%R.
Proof.
  unfold valid_distribution. intros H. apply andb_prop in H as [H _].
  rewrite forallb_forall in H.
  destruct (nth_in_or_default i p 0%R) as [Hin| ->]; [|lra].
  apply H in Hin. by apply bool_decide_eq_true_1 in Hin.
Qed.

Lemma Rsum_nonpos l : Forall (λ x, (x <= 0)%R) l → (Rsum l <= 0)%R.
Proof. unfold Rsum. induction 1 as [|x l Hx _ IH]; cbn; lra. Qed.

Lemma Rsum_fmap_le {A} (f g : A → R) l :
  Forall (λ a, (f a <= g a)%R) l → (Rsum (f <$> l) <= Rsum (g <$> l))%R.
Proof. unfold Rsum. induction 1 as [|a l Ha _ IH]; cbn; lra. Qed.

Lemma ln_odds_nonpos (p c : R) :
  (0 < p → 0 <= c → ln (p / (p + c)) <= 0)%R.
Proof.
  intros Hp Hc. rewrite <- ln_1.
  assert (0 < p / (p + c))%R by (apply Rdiv_lt_0_compat; lra).
  assert (p / (p + c) <= 1)%R.
  { apply (Rmult_le_reg_r (p + c)); [lra|]. field_simplify; lra. }
  destruct (Req_dec (p / (p + c)) 1) as [->|Hne]; [lra|].
  left. apply ln_increasing; lra.
Qed.

Lemma data_term_nonpos self W b e :
  valid_distribution (noise self) = true →
  (data_term self W b e <= 0)%R.
Proof.
  intros Hv. unfold data_term. cbn zeta.
  apply ln_odds_nonpos; [apply exp_pos|].
  apply Rmult_le_pos; [apply pos_INR|by apply valid_distribution_nonneg].
Qed.

Lemma noise_term_nonpos self W b e :
  0 < noise_ratio self →
  Forall (λ j, (0 < nth j (noise self) 0)%R) (ex_draws e) →
  (noise_term self W b e <= 0)%R.
Proof.
  intros HK Hd. unfold noise_term. cbn zeta.
  apply Rsum_nonpos, Forall_fmap. eapply Forall_impl; [exact Hd|].
  intros j Hj. cbn.
  set (c := (INR (noise_ratio self) * nth j (noise self) 0)%R).
  assert (0 < c)%R by (apply Rmult_lt_0_compat; [by apply lt_0_INR|done]).
  pose proof (exp_pos (logit W b (ex_input e) j - norm_term self)) as Hp.
  unfold model_prob. set (p := exp _) in *.
  replace (p + c)%R with (c + p)%R by lra.
  apply ln_odds_nonpos; lra.
Qed.

Lemma examples_from_draws_on_tape (P : nat → Prop) tp K xs : ∀ ts p,
  (∀ i, P (tp i)) →
  Forall (λ e, Forall P (ex_draws e)) (examples_from tp p K xs ts).
Proof.
  induction xs as [|x xs IH]; intros [|t ts] p HP; cbn; try by constructor.
  constructor; [|by apply IH]. cbn.
  apply Forall_fmap, Forall_forall. intros i _. apply HP.
Qed.

(** X11. With tensors whose sizes fit and tensor elements as real
    numbers, when every token the generator draws has a positive noise
    probability, the loss [forward] returns is never negative: the data
    term and the noise term of every example are logarithms of numbers
    in (0, 1]. *)
Theorem forward_loss_nonnegative
    (self : NCELoss) (W : list (list R)) (b : list R) (E : nat)
    (input : list (list R)) (target : list nat) (w : world) :
  forward_ready self W b w →
  Forall (λ row, length row = E) W →
  Forall (λ x, length x = E) input →
  length input = length target →
  Forall (λ t, t < length (noise self)) target →
  (∀ i, (0 < nth (tape w i) (noise self) 0)%R) →
  ∃ loss,
    forward self input target w =
      (Ok loss, advance (length target * noise_ratio self) w)
    ∧ (0 <= loss)%R.
Proof.
  intros Hr _ _ Hlen Hts Hpos.
  rewrite (forward_run self W b input target w Hr Hlen Hts).
  eexists. split; [done|].
  assert (Htot : (0 <= total_loss self W b (examples self input target w))%R).
  { unfold total_loss.
    apply Ropp_0_ge_le_contravar, Rle_ge, Rsum_nonpos, Forall_fmap.
    pose proof (examples_from_draws_on_tape
      (λ j, (0 < nth j (noise self) 0)%R) (tape w) (noise_ratio self)
      input target (rng_pos w) Hpos) as Hd.
    eapply Forall_impl; [exact Hd|]. intros e He. cbn.
    pose proof (data_term_nonpos self W b e (ready_noise _ _ _ _ Hr)).
    pose proof (noise_term_nonpos self W b e (ready_ratio _ _ _ _ Hr) He).
    lra. }
  unfold nce_loss. destruct (size_average self); [|done].
  destruct (examples self input target w) as [|e exs] eqn:Hexs.
  - unfold total_loss, Rdiv. cbn. lra.
  - apply Rle_mult_inv_pos; [done|]. apply lt_0_INR. cbn. lia.
Qed.

Lemma forward_loss_nonnegative_witness :
  ∃ loss,
    forward Demo.self Demo.input Demo.target Demo.w =
      (Ok loss, advance (1 * 2) Demo.w)
    ∧ (0 <= loss)%R.
Proof.
  apply (forward_loss_nonnegative Demo.self Demo.W Demo.b 2).
  - apply demo_ready.
  - repeat constructor.
  - repeat constructor.
  - reflexivity.
  - apply demo_target_in_range.
  - intros i. cbn. lra.
Defined.

(** X12. For the same noise samples, each with a positive noise
    probability, raising the logits of the noise samples never lowers the
    negated noise term: a model that scores the noise higher pays for
    it. *)
Theorem noise_term_monotone
    (self : NCELoss) (W W' : list (list R)) (b b' : list R) (e e' : example) :
  0 < noise_ratio self →
  ex_draws e' = ex_draws e →
  Forall (λ j, (0 < nth j (noise self) 0)%R
               ∧ (logit W b (ex_input e) j <= logit W' b' (ex_input e') j)%R)
    (ex_draws e) →
  (- noise_term self W b e <= - noise_term self W' b' e')%R.
Proof.
  intros HK Hd Hj. apply Ropp_le_contravar.
  unfold noise_term. cbn zeta. rewrite Hd.
  apply Rsum_fmap_le. eapply Forall_impl; [exact Hj|].
  intros j [Hq Hl]. cbn. unfold model_prob.
  set (c := (INR (noise_ratio self) * nth j (noise self) 0)%R).
  assert (Hc : (0 < c)%R) by (apply Rmult_lt_0_compat; [by apply lt_0_INR|done]).
  pose proof (exp_pos (logit W b (ex_input e) j - norm_term self)) as Hp.
  set (p := exp (logit W b (ex_input e) j - norm_term self)) in *.
  set (p' := exp (logit W' b' (ex_input e') j - norm_term self)).
  assert (Hpp : (p <= p')%R).
  { destruct Hl as [Hl| Hl].
    - left. apply exp_increasing. lra.
    - unfold p, p'. rewrite Hl. lra. }
  assert (Hr : (c / (p' + c) <= c / (p + c))%R).
  { unfold Rdiv. apply Rmult_le_compat_l; [lra|].
    apply Rinv_le_contravar; lra. }
  destruct Hr as [Hr| ->]; [|lra].
  left. apply ln_increasing; [|done]. apply Rdiv_lt_0_compat; lra.
Qed.

Lemma noise_term_monotone_witness :
  (- noise_term Demo.self Demo.W Demo.b demo_example
   <= - noise_term Demo.self Demo.W [1; 0] demo_example)%R.
Proof.
  apply noise_term_monotone.
  - cbn. lia.
  - reflexivity.
  - repeat constructor; cbn; try lra; unfold logit, dot, Rsum; cbn; lra.
Defined.

(** ** Construction and use *)

Lemma rand_mat_shape cols : ∀ (rows : list nat) w,
  ∃ Wv n,
    mapM (λ _ : nat, rand_vec cols) rows w = (Ok Wv, advance n w)
    ∧ length Wv = length rows
    ∧ Forall (λ r, length r = cols) Wv.
Proof.
  induction rows as [|r rows IH]; intros w; cbn [mapM].
  - exists [], 0. by rewrite advance_0.
  - rewrite bind_run. unfold rand_vec at 1.
    destruct (IH (advance cols w)) as (Wv & n & HWv & Hlen & Hrows).
    rewrite bind_run, HWv, ret_run, advance_advance.
    do 2 eexists. split; [done|]. cbn [length]. split; [by rewrite Hlen|].
    constructor; [|done]. by rewrite length_fmap, length_seq.
Qed.

(** Constructing the decoder: two fresh parameters of the sizes asked
    for, on top of the heap. *)
Lemma IndexLinear_init_alloc in_features out_features w :
  ∃ dec w' Wv bv,
    IndexLinear_init in_features out_features w = (Ok dec, w')
    ∧ heap w' = <[bias dec := Vec bv]> (<[weight dec := Mat Wv]> (heap w))
    ∧ heap w !! weight dec = None
    ∧ heap w !! bias dec = None
    ∧ weight dec ≠ bias dec
    ∧ length Wv = out_features
    ∧ Forall (λ r, length r = in_features) Wv
    ∧ length bv = out_features
    ∧ cuda_available w' = cuda_available w
    ∧ tape w' = tape w.
Proof.
  unfold IndexLinear_init, rand_mat.
  destruct (rand_mat_shape in_features (seq 0 out_features) w)
    as (Wv & n & HWv & HlenW & Hrows).
  rewrite length_seq in HlenW.
  rewrite (bind_ok _ _ _ _ _ HWv).
  rewrite bind_run. unfold rand_vec at 1.
  set (bv := uniform (advance n w) <$> seq (rng_pos (advance n w)) out_features).
  set (w1 := advance out_features (advance n w)).
  destruct (alloc_run (Mat Wv) w1) as (lw & Hlw & Hfw).
  rewrite (bind_ok _ _ _ _ _ Hlw).
  set (w2 := set_heap _ w1) in *.
  destruct (alloc_run (Vec bv) w2) as (lb & Hlb & Hfb).
  rewrite (bind_ok _ _ _ _ _ Hlb). rewrite ret_run.
  exists (MkIndexLinear lw lb), (set_heap (<[lb:=Vec bv]> (heap w2)) w2), Wv, bv.
  subst w2 w1. cbn [heap set_heap advance weight bias] in *.
  assert (Hne : lw ≠ lb).
  { intros ->. by rewrite lookup_insert_eq in Hfb. }
  rewrite lookup_insert_ne in Hfb by done.
  repeat split; try done.
  unfold bv. by rewrite length_fmap, length_seq.
Qed.

(** X13. Construction without a tied weight allocates the decoder's
    weight, [ntokens] rows of [emb_size] entries, and its bias, [ntokens]
    entries, at two distinct addresses not in use before, and changes no
    parameter that was there. *)
Theorem init_allocates_decoder
    (ntokens emb_size : nat) (noise_weights : list R) (ratio : option nat)
    (norm : option R) (average : option bool) (w : world) :
  ∃ self w' Wv bv,
    NCELoss_init ntokens emb_size noise_weights ratio norm average None w
      = (Ok self, w')
    ∧ heap w' !! weight (decoder self) = Some (Mat Wv)
    ∧ heap w' !! bias (decoder self) = Some (Vec bv)
    ∧ length Wv = ntokens
    ∧ Forall (λ r, length r = emb_size) Wv
    ∧ length bv = ntokens
    ∧ weight (decoder self) ≠ bias (decoder self)
    ∧ heap w !! weight (decoder self) = None
    ∧ heap w !! bias (decoder self) = None
    ∧ ∀ l t, heap w !! l = Some t → heap w' !! l = Some t.
Proof.
  unfold NCELoss_init.
  destruct (IndexLinear_init_alloc emb_size ntokens w)
    as (dec & w' & Wv & bv & Hdec & Hheap & Hfw & Hfb & Hne & HW & Hrows & Hb & _).
  rewrite (bind_ok _ _ _ _ _ Hdec), bind_run, !ret_run.
  exists (MkNCELoss noise_weights (default 10 ratio) (default 9%R norm)
            ntokens (default true average) dec), w', Wv, bv.
  cbn [decoder]. rewrite Hheap.
  repeat split; try done.
  - rewrite lookup_insert_ne by done. by rewrite lookup_insert_eq.
  - by rewrite lookup_insert_eq.
  - intros l t Hl.
    rewrite !lookup_insert_ne; [done|congruence..].
Qed.


